(** * MediapipePackageDllTest: the demo harness of the Mediapipe tracking DLLs

    A shallow embedding of [dll_use_example/MediapipePackageDllTest/src/main.cpp]:
    the two result-code lookup tables, the landmarks callback with the global
    key-point buffer it fills, the key-point drawing routine and the camera
    capture loop of [HandTrackingDllTest].  The module loader class and the
    tracking module itself are declared in headers that main.cpp only
    includes; they are modelled from the specification and marked as such. *)

From Stdlib Require Import ZArith QArith Lia.
From stdpp Require Import base option list strings gmap.

Local Open Scope Z_scope.

(* ===================================================================== *)
(** ** Result-code lookup tables                                          *)
(* ===================================================================== *)

(** [std::string GetGestureResult(int result)]: the local is initialised to
    the unknown-gesture label and the switch overwrites it for 1..9. *)
Definition unknown_gesture : string := "未知手势".

Definition GetGestureResult (result : Z) : string :=
  let result_str := unknown_gesture in
  match result with
  | 1 => "One"
  | 2 => "Two"
  | 3 => "Three"
  | 4 => "Four"
  | 5 => "Five"
  | 6 => "Six"
  | 7 => "ThumbUp"
  | 8 => "Ok"
  | 9 => "Fist"
  | _ => result_str
  end.

(** [std::string GetArmUpAndDownResult(int result)]: the switch has an
    explicit [case -1] that stores the unknown label again. *)
Definition unknown_arm : string := "未知".
Definition arm_raised : string := "手臂抬起".
Definition arm_lowered : string := "手臂放下".

Definition GetArmUpAndDownResult (result : Z) : string :=
  let result_str := unknown_arm in
  match result with
  | -1 => unknown_arm
  | 1 => arm_raised
  | 2 => arm_lowered
  | _ => result_str
  end.

(** The nine labels of recognised poses. *)
Definition gesture_labels : list string :=
  ["One"; "Two"; "Three"; "Four"; "Five"; "Six"; "ThumbUp"; "Ok"; "Fist"].

(* ===================================================================== *)
(** ** Key points and the global buffer                                   *)
(* ===================================================================== *)

(** [cv::Point]: a pair of [int] coordinates. *)
Record Point := mkPoint { pt_x : Z; pt_y : Z }.

(** A value of the C++ type [float]: a finite one, which is a rational,
    an infinity or a NaN. *)
Inductive float :=
| Finite (q : Q)
| Infinity (negative : bool)
| NaN.

Coercion Finite : Q >-> float.

(** Modelled from the spec: [PoseInfo] is declared in
    MediapipeHandTrackingDll.h, which main.cpp includes but which is not
    among the sources.  Section 3 calls it a normalized 2D point (x, y);
    main.cpp reads the two fields as [float]. *)
Record PoseInfo := mkPoseInfo { x : float; y : float }.

Definition INT_MIN : Z := - 2 ^ 31.
Definition INT_MAX : Z := 2 ^ 31 - 1.

(** A rational cut toward zero. *)
Definition truncate (q : Q) : Z := Z.quot (Qnum q) (Z.pos (Qden q)).

(** The floats whose conversion to [int] is defined in C++: the finite
    ones whose truncation fits. *)
Definition converts (f : float) : bool :=
  match f with
  | Finite q => (INT_MIN <=? truncate q) && (truncate q <=? INT_MAX)
  | _ => false
  end.

(** The implicit conversion [float -> int] done when [cv::Point(int, int)]
    is called with two floats: truncation toward zero.  For the other
    floats (too large, infinite, NaN) C++ leaves the result undefined; the
    instruction of the x86-64 target, cvttss2si, gives [INT_MIN] there. *)
Definition float_to_int (f : float) : Z :=
  match f with
  | Finite q => if converts f then truncate q else INT_MIN
  | _ => INT_MIN
  end.

Definition cv_Point (info : PoseInfo) : Point :=
  mkPoint (float_to_int (x info)) (float_to_int (y info)).

(** An access to the global vector [handKPs], by index. *)
Inductive Access :=
| KpRead (i : Z)
| KpWrite (i : Z).

Definition access_index (a : Access) : Z :=
  match a with KpRead i => i | KpWrite i => i end.

(** The two globals of main.cpp.  [kp_accesses] is a ghost field: the
    history of the indices at which [handKPs] was read or written. *)
Record Globals := mkGlobals {
  handKPs : list Point;
  gValidKpCount : Z;
  kp_accesses : list Access
}.

(** [std::vector<cv::Point> handKPs(42); int gValidKpCount = 21;] *)
Definition initial_globals : Globals :=
  mkGlobals (replicate 42 (mkPoint 0 0)) 21 [].

(** Code that reads and writes the globals and that may run into undefined
    behaviour ([None]): an index outside the vector. *)
Definition Prog (A : Type) : Type := Globals -> option (A * Globals).

Definition ret {A} (a : A) : Prog A := fun g => Some (a, g).

Definition bind {A B} (m : Prog A) (k : A -> Prog B) : Prog B :=
  fun g => match m g with
           | Some (a, g') => k a g'
           | None => None
           end.

Notation "'do' v <- m ; k" := (bind m (fun v => k))
  (at level 10, v name, m at level 100, k at level 200,
   format "'[v' 'do'  v  <-  m ; '/' k ']'").
Notation "'run' m ; k" := (bind m (fun _ => k))
  (at level 10, m at level 100, k at level 200,
   format "'[v' 'run'  m ; '/' k ']'").

(** [handKPs[i]] as an rvalue; outside [0, size) it is undefined. *)
Definition load_kp (i : Z) : Prog Point := fun g =>
  if decide (0 <= i) then
    match handKPs g !! Z.to_nat i with
    | Some p => Some (p, mkGlobals (handKPs g) (gValidKpCount g)
                                   (kp_accesses g ++ [KpRead i]))
    | None => None
    end
  else None.

(** [handKPs[i] = p]; outside [0, size) it is undefined. *)
Definition store_kp (i : Z) (p : Point) : Prog unit := fun g =>
  if decide (0 <= i < Z.of_nat (length (handKPs g))) then
    Some (tt, mkGlobals (<[Z.to_nat i := p]> (handKPs g)) (gValidKpCount g)
                        (kp_accesses g ++ [KpWrite i]))
  else None.

Definition get_count : Prog Z := fun g => Some (gValidKpCount g, g).

Definition set_count (c : Z) : Prog unit := fun g =>
  Some (tt, mkGlobals (handKPs g) c (kp_accesses g)).

(** [for (int i = start; i < start + n; ++i) body(i)], with the number of
    iterations that remain as the structural argument. *)
Fixpoint for_from {A} (n : nat) (i : Z) (body : Z -> A -> Prog A) (a : A) : Prog A :=
  match n with
  | O => ret a
  | S n' => do a' <- body i a; for_from n' (i + 1) body a'
  end.

(** [for (int i = 0; i < bound; ++i) body(i)]: no iteration when
    [bound <= 0]. *)
Definition for_upto {A} (bound : Z) (body : Z -> A -> Prog A) (a : A) : Prog A :=
  for_from (Z.to_nat bound) 0 body a.

(* ===================================================================== *)
(** ** The landmarks callback                                             *)
(* ===================================================================== *)

(** The body of the copy loop:
    [if (i < 42) handKPs[i] = cv::Point(infos[i].x, infos[i].y);] *)
Definition copy_body (infos : Z -> PoseInfo) (i : Z) (_ : unit) : Prog unit :=
  if decide (i < 42) then store_kp i (cv_Point (infos i)) else ret tt.

(** [void LandmarksCallBackImpl(int image_index, PoseInfo* infos, int count)].
    [infos] is a raw pointer: the memory behind it is a function of the
    index.  The two lines written to [std::cout] are left out. *)
Definition LandmarksCallBackImpl (image_index : Z) (infos : Z -> PoseInfo)
    (count : Z) : Prog unit :=
  run set_count count;
  do c <- get_count;
  run (if decide (c > 42) then set_count 42 else ret tt);
  for_upto count (copy_body infos) tt.

(* ===================================================================== *)
(** ** Drawing the key points                                             *)
(* ===================================================================== *)

(** What [cv::circle] and [cv::line] leave on the image. *)
Inductive Shape :=
| Circle (center : Point) (radius : Z) (color : Z * Z * Z) (thickness : Z)
| Line (p1 p2 : Point) (color : Z * Z * Z) (thickness : Z).

(** [cv::Mat], as far as drawing is concerned: the shapes drawn so far. *)
Definition Mat := list Shape.

(** The 21 segments of one hand, as the pairs of joint numbers of the 21
    [cv::line] calls, in the order of the source. *)
Definition hand_segments : list (Z * Z) :=
  [(0, 1); (1, 2); (2, 3); (3, 4);
   (0, 5); (5, 6); (6, 7); (7, 8);
   (9, 10); (10, 11); (11, 12);
   (13, 14); (14, 15); (15, 16);
   (0, 17); (17, 18); (18, 19); (19, 20);
   (5, 9); (9, 13); (13, 17)].

(** One [cv::line(srcImage, handKPs[offset + a], handKPs[offset + b], ...)]. *)
Definition draw_segment (offset : Z) (seg : Z * Z) (img : Mat) : Prog Mat :=
  do p1 <- load_kp (offset + fst seg);
  do p2 <- load_kp (offset + snd seg);
  ret (img ++ [Line p1 p2 (0, 255, 0) 2]).

Fixpoint draw_segments (offset : Z) (segs : list (Z * Z)) (img : Mat) : Prog Mat :=
  match segs with
  | [] => ret img
  | seg :: rest => do img' <- draw_segment offset seg img; draw_segments offset rest img'
  end.

(** [void DrawHandKeyponts(cv::Mat& srcImage)].  The second loop carries
    [offset] along with the image; [/] on [int] truncates toward zero. *)
Definition DrawHandKeyponts (srcImage : Mat) : Prog Mat :=
  do n <- get_count;
  do img1 <- for_upto n (fun i img =>
               do p <- load_kp i; ret (img ++ [Circle p 6 (0, 0, 255) (-1)])) srcImage;
  do n' <- get_count;
  let handCount := Z.quot n' 21 in
  do r <- for_upto handCount (fun _ (st : Z * Mat) =>
            do img' <- draw_segments (fst st) hand_segments (snd st);
            ret (fst st + 21, img')) (0, img1);
  ret (snd r).

(** The buffer reads of [DrawHandKeyponts] when [gValidKpCount] is [n]: the
    centres of the circles, then, hand after hand, the two ends of each of
    the 21 segments. *)
Definition circle_reads (n : Z) : list Access := map KpRead (seqZ 0 n).

Definition segment_reads (offset : Z) : list Access :=
  flat_map (fun seg => [KpRead (offset + fst seg); KpRead (offset + snd seg)])
           hand_segments.

Definition hand_offsets (n : Z) : list Z :=
  map (fun k => 21 * k) (seqZ 0 (Z.quot n 21)).

Definition line_reads (n : Z) : list Access :=
  flat_map segment_reads (hand_offsets n).

(** The globals after more accesses to the buffer were recorded. *)
Definition with_accesses (g : Globals) (l : list Access) : Globals :=
  mkGlobals (handKPs g) (gValidKpCount g) (kp_accesses g ++ l).

(* ===================================================================== *)
(** ** The capture loop of HandTrackingDllTest                            *)
(* ===================================================================== *)

(** [int] is 32 bits wide; [image_index += 1] wraps on the target
    platform. *)
Definition wrap_int (z : Z) : Z := (z + 2 ^ 31) mod 2 ^ 32 - 2 ^ 31.

(** One call of the registered landmarks callback, made by the tracking
    module while [Detect_Frame] runs. *)
Record Invocation := mkInvocation {
  inv_image_index : Z;
  inv_infos : Z -> PoseInfo;
  inv_count : Z
}.

(** What the camera, the tracking module and the keyboard do during one
    pass of the loop.  The module is reached through function pointers and
    is not part of main.cpp: its result and the callbacks it makes are
    inputs here. *)
Record FrameEvent := mkFrameEvent {
  read_ok : bool;                      (* cap.read(frame) *)
  frame_empty : bool;                  (* frame.empty() *)
  frame_cols : Z;                      (* copyMat.cols *)
  frame_rows : Z;                      (* copyMat.rows *)
  landmark_calls : list Invocation;    (* callbacks made inside Detect_Frame *)
  detect_ok : bool;                    (* result of Detect_Frame *)
  key : Z                              (* cv::waitKey(1) *)
}.

(** The arguments of one [m_Mediapipe_Hand_Tracking_Detect_Frame] call. *)
Record DetectCall := mkDetectCall {
  dc_image_index : Z;
  dc_width : Z;
  dc_height : Z
}.

(** The locals of the loop and what it did so far: the calls made to the
    module and the frames handed to [imshow]. *)
Record Harness := mkHarness {
  image_index : Z;
  detect_log : list DetectCall;
  shown : list Mat
}.

Fixpoint run_callbacks (calls : list Invocation) : Prog unit :=
  match calls with
  | [] => ret tt
  | c :: rest =>
      run LandmarksCallBackImpl (inv_image_index c) (inv_infos c) (inv_count c);
      run_callbacks rest
  end.

(** The call through [m_Mediapipe_Hand_Tracking_Detect_Frame]: the module
    runs the registered callback as the event says, then returns. *)
Definition Detect_Frame (ev : FrameEvent) : Prog bool :=
  run run_callbacks (landmark_calls ev);
  ret (detect_ok ev).

(** What follows the call in the loop body: on success, and when the
    callback left a positive [gValidKpCount], the key points are drawn on
    the frame.  The camera picture itself is not modelled: a frame is the
    list of shapes drawn on it. *)
Definition draw_if_detected (ok : bool) : Prog Mat :=
  if ok then
    do c <- get_count;
    if decide (c > 0) then DrawHandKeyponts [] else ret []
  else ret [].

(** The body of [while (1)], one pass per event; the observed run ends
    with the events. *)
Fixpoint capture_loop (evs : list FrameEvent) (h : Harness) : Prog Harness :=
  match evs with
  | [] => ret h
  | ev :: rest =>
      if negb (read_ok ev) then ret h
      else if frame_empty ev then ret h
      else
        run set_count 0;
        do ok <- Detect_Frame ev;
        let call := mkDetectCall (image_index h) (frame_cols ev) (frame_rows ev) in
        do frame <- draw_if_detected ok;
        let h' := mkHarness (image_index h) (detect_log h ++ [call]) (shown h ++ [frame]) in
        if decide (key ev >= 0) then ret h'
        else capture_loop rest
               (mkHarness (wrap_int (image_index h' + 1)) (detect_log h') (shown h'))
  end.

(** [int image_index = 0; while (1) { ... }] *)
Definition HandTrackingDllTest_loop (evs : list FrameEvent) : Prog Harness :=
  capture_loop evs (mkHarness 0 [] []).

(** A short run: a frame on which the module reports one hand, a frame on
    which it makes no callback, and a frame with two hands during which a
    key is pressed. *)
Definition demo_events : list FrameEvent :=
  let infos := fun i : Z => mkPoseInfo (i # 1) (i # 2) in
  [ mkFrameEvent true false 640 480 [mkInvocation 0 infos 21] true (-1);
    mkFrameEvent true false 640 480 [] true (-1);
    mkFrameEvent true false 640 480 [mkInvocation 2 infos 42] true 27 ].

(* ===================================================================== *)
(** ** Landmarks as the callback receives them                            *)
(* ===================================================================== *)

(** A landmark whose two coordinates convert to [int]. *)
Definition representable (info : PoseInfo) : bool :=
  converts (x info) && converts (y info).

(** The first 42 landmarks behind [infos], all the callback ever reads,
    are representable. *)
Definition landmarks_representable (infos : Z -> PoseInfo) : bool :=
  forallb (fun j => representable (infos j)) (seqZ 0 42).

(** An array of 42 landmarks with the points of the right hand first, the
    layout the comment above [LandmarksCallBackImpl] gives for count 42:
    joint [j] of the right hand at index [j], joint [j] of the left hand at
    index [21 + j]. *)
Definition two_hands (right_hand left_hand : Z -> PoseInfo) : Z -> PoseInfo :=
  fun i => if decide (i < 21) then right_hand i else left_hand (i - 21).

(** Two hands: joint [j] of the right hand at (j, 1/2), joint [j] of the
    left hand at (j, 7/2). *)
Definition demo_two_hands : Z -> PoseInfo :=
  two_hands (fun j => mkPoseInfo (j # 1) (1 # 2)) (fun j => mkPoseInfo (j # 1) (7 # 2)).

(* ===================================================================== *)
(** ** The module loader                                                  *)
(* ===================================================================== *)

(** Modelled from the spec: the error taxonomy of section 7.  The loader
    class [MediapipeHandTrackingDll] is declared in a header that main.cpp
    includes and that is not among the sources; main.cpp only calls it. *)
Inductive Error :=
| ModuleNotFound
| SymbolNotFound (name : string)
| NotInitialized
| AlreadyLoaded
| RegistrationFailed
| DetectionFailed
| ReleaseFailed.

Inductive Status :=
| Ok
| Failed (e : Error).

(** Modelled from the spec: the states of section 4.1,
    Unloaded, Loaded, Resolved, Initialized, Released.  (Detecting is the
    time spent inside a detection call of an initialized loader.) *)
Inductive Phase := Unloaded | Loaded | Resolved | Initialized | Released.

(** Modelled from the spec: the fixed export list of sections 4.1 and 6. *)
Definition required_symbols : list string :=
  ["init"; "register-landmarks-callback"; "register-classification-callback";
   "detect-frame"; "detect-frame-direct"; "detect-video"; "release"].

(** Modelled from the spec: frame metadata and the raw pixel buffer of
    [Invoke<DetectFrame>]. *)
Record Frame := mkFrame {
  frame_index : Z;
  frame_width : Z;
  frame_height : Z;
  pixel_buffer : list Z
}.

(** Modelled from the spec: a native module as the loader sees it: the
    symbols it exports, each with the address of its callable; the
    internal state it holds (section 4.1, Release), a list of numbers that
    is empty when it holds none; and, for each entry point, what the
    module reports when it is called in a given internal state and the
    internal state it is in afterwards.  The loader does not interpret the
    reasons. *)
Record NativeModule := mkNativeModule {
  exports : gmap string nat;
  internal : list Z;
  module_init : list Z -> string -> list bool -> bool * list Z;
  module_detect_frame : list Z -> Frame -> bool * list Z;
  module_detect_frame_direct : list Z -> Frame -> bool * list Z;
  module_detect_video : list Z -> string -> bool * list Z;
  module_release : list Z -> bool
}.

(** The same module holding another internal state. *)
Definition with_internal (m : NativeModule) (s : list Z) : NativeModule :=
  mkNativeModule (exports m) s (module_init m) (module_detect_frame m)
    (module_detect_frame_direct m) (module_detect_video m) (module_release m).

(** Modelled from the spec: a Module Loader instance: its state, the
    module handle it owns and its Entry Point Table. *)
Record Loader := mkLoader {
  phase : Phase;
  handle : option NativeModule;
  table : gmap string nat
}.

Definition unloaded_loader : Loader := mkLoader Unloaded None ∅.

(** Modelled from the spec: [Load(path)].  [fs] is the file system: the
    loadable module behind a path, if there is one.  [ModuleNotFound] when
    the path does not resolve, [AlreadyLoaded] when the instance was not
    unloaded; on success the instance is loaded. *)
Definition Load (fs : string -> option NativeModule) (path : string)
    (ld : Loader) : Status * Loader :=
  match phase ld with
  | Unloaded =>
      match fs path with
      | Some m => (Ok, mkLoader Loaded (Some m) ∅)
      | None => (Failed ModuleNotFound, ld)
      end
  | _ => (Failed AlreadyLoaded, ld)
  end.

(** Resolution of the names in order: the table built so far, or the first
    name the module does not export. *)
Fixpoint resolve (names : list string) (exported : gmap string nat)
    (tbl : gmap string nat) : string + gmap string nat :=
  match names with
  | [] => inr tbl
  | name :: rest =>
      match exported !! name with
      | Some callable => resolve rest exported (<[name := callable]> tbl)
      | None => inl name
      end
  end.

(** Modelled from the spec: [ResolveAll()], an operation of a loaded
    instance.  Either every required symbol resolves and the instance is
    resolved, or it fails with [SymbolNotFound(name)] and keeps no entry
    point.  The spec defines it for the loaded state only ([None]
    elsewhere). *)
Definition ResolveAll (ld : Loader) : option (Status * Loader) :=
  match phase ld, handle ld with
  | Loaded, Some m =>
      match resolve required_symbols (exports m) ∅ with
      | inr tbl => Some (Ok, mkLoader Resolved (Some m) tbl)
      | inl name => Some (Failed (SymbolNotFound name), mkLoader Loaded (Some m) ∅)
      end
  | _, _ => None
  end.

(** Modelled from the spec: [Invoke<Init>(configPath, ...flags)], the step
    from Resolved to Initialized: calls the resolved entry point and
    returns what the module reports; the module is left in the internal
    state its init entry point gives it. *)
Definition Init (configPath : string) (flags : list bool) (ld : Loader)
    : option (bool * Loader) :=
  match phase ld, handle ld, table ld !! "init" with
  | Resolved, Some m, Some _ =>
      let answer := module_init m (internal m) configPath flags in
      if fst answer
      then Some (true, mkLoader Initialized (Some (with_internal m (snd answer))) (table ld))
      else Some (false, mkLoader Resolved (Some (with_internal m (snd answer))) (table ld))
  | _, _, _ => None
  end.

(** Modelled from the spec: the detection operations and the release
    operation named in the export list. *)
Inductive Operation :=
| DetectFrame (f : Frame)
| DetectFrameDirect (f : Frame)
| DetectVideo (path : string)
| Release.

Definition operation_symbol (op : Operation) : string :=
  match op with
  | DetectFrame _ => "detect-frame"
  | DetectFrameDirect _ => "detect-frame-direct"
  | DetectVideo _ => "detect-video"
  | Release => "release"
  end.

(** What the module reports for an operation, as a status, and the
    internal state it holds afterwards.  A release that succeeds releases
    any internal state the module holds; one that fails leaves it. *)
Definition module_answer (m : NativeModule) (op : Operation) : Status * list Z :=
  let detection (answer : bool * list Z) :=
    (if fst answer then Ok else Failed DetectionFailed, snd answer) in
  match op with
  | DetectFrame f => detection (module_detect_frame m (internal m) f)
  | DetectFrameDirect f => detection (module_detect_frame_direct m (internal m) f)
  | DetectVideo path => detection (module_detect_video m (internal m) path)
  | Release =>
      if module_release m (internal m) then (Ok, []) else (Failed ReleaseFailed, internal m)
  end.

(** Modelled from the spec: [Invoke<DetectFrame>], its siblings and
    [Invoke<Release>].  Before Initialized the call is the usage error
    [NotInitialized]; in Initialized it goes through the resolved entry
    point, and a release that succeeds makes the instance Released.  The
    spec is silent on the operations of a released instance ([None]). *)
Definition Invoke (op : Operation) (ld : Loader) : option (Status * Loader) :=
  match phase ld with
  | Unloaded | Loaded | Resolved => Some (Failed NotInitialized, ld)
  | Initialized =>
      match handle ld, table ld !! operation_symbol op with
      | Some m, Some _ =>
          let answer := module_answer m op in
          let m' := with_internal m (snd answer) in
          match op, fst answer with
          | Release, Ok => Some (Ok, mkLoader Released (Some m') (table ld))
          | _, r => Some (r, mkLoader Initialized (Some m') (table ld))
          end
      | _, _ => None
      end
  | Released => None
  end.

(** Modelled from the spec: [Unload()]: releases the module handle; the
    instance returns to the unloaded state and no resolved callable
    stays. *)
Definition Unload (ld : Loader) : Status * Loader := (Ok, unloaded_loader).

(** The states that have not reached Initialized. *)
Definition before_initialized (ld : Loader) : Prop :=
  phase ld = Unloaded \/ phase ld = Loaded \/ phase ld = Resolved.

(** A loader that offers nothing: no entry point in its table, no
    initialization, and every detection or release call is refused. *)
Definition unusable (ld : Loader) : Prop :=
  table ld = ∅ /\
  phase ld = Loaded /\
  (forall configPath flags, Init configPath flags ld = None) /\
  (forall op, Invoke op ld = Some (Failed NotInitialized, ld)).

(** A required symbol that a module does not export. *)
Definition missing (m : NativeModule) (s : string) : Prop :=
  s ∈ required_symbols /\ exports m !! s = None.

(** The calls a client can make on a loader, and what they answer. *)
Inductive Command :=
| CLoad (path : string)
| CResolveAll
| CInit (configPath : string) (flags : list bool)
| CInvoke (op : Operation)
| CUnload.

Inductive Reply :=
| RStatus (s : Status)
| RBool (b : bool).

Definition exec (fs : string -> option NativeModule) (c : Command) (ld : Loader)
    : option (Reply * Loader) :=
  match c with
  | CLoad path => let '(r, ld') := Load fs path ld in Some (RStatus r, ld')
  | CResolveAll => '(r, ld') ← ResolveAll ld; Some (RStatus r, ld')
  | CInit configPath flags => '(b, ld') ← Init configPath flags ld; Some (RBool b, ld')
  | CInvoke op => '(r, ld') ← Invoke op ld; Some (RStatus r, ld')
  | CUnload => let '(r, ld') := Unload ld in Some (RStatus r, ld')
  end.

(** A sequence of calls, each on the loader the previous one left; [None]
    when one of them is outside what the spec defines. *)
Fixpoint exec_all (fs : string -> option NativeModule) (cs : list Command)
    (ld : Loader) : option (list Reply * Loader) :=
  match cs with
  | [] => Some ([], ld)
  | c :: rest =>
      '(r, ld1) ← exec fs c ld;
      '(rs, ld2) ← exec_all fs rest ld1;
      Some (r :: rs, ld2)
  end.

(** A client that goes on after an initialization that failed, as
    [HandTrackingDllTest] does: it prints the failure and calls the
    detection and release entry points all the same. *)
Definition calls_after_failed_init : list Command :=
  [CLoad "./refusing.dll"; CResolveAll;
   CInit "./hand_tracking_desktop_live.pbtxt" [];
   CInvoke (DetectFrame (mkFrame 0 100 100 []));
   CInvoke Release].

(** A module that exports every required symbol, symbol number [k] of
    the list at address [k].  It holds no internal state at first; its
    init succeeds when it holds none and makes it hold some, and refuses
    when it is already initialized; detection and release succeed. *)
Definition complete_module : NativeModule :=
  mkNativeModule
    (list_to_map (zip required_symbols (seq 0 (length required_symbols))))
    []
    (fun s _ _ => match s with [] => (true, [1]) | _ => (false, s) end)
    (fun s _ => (true, s)) (fun s _ => (true, s)) (fun s _ => (true, s))
    (fun _ => true).

(** The same module without its [detect-frame] export. *)
Definition module_without_detect_frame : NativeModule :=
  mkNativeModule (delete "detect-frame" (exports complete_module))
    []
    (fun s _ _ => match s with [] => (true, [1]) | _ => (false, s) end)
    (fun s _ => (true, s)) (fun s _ => (true, s)) (fun s _ => (true, s))
    (fun _ => true).

(** The same module, but its init entry point reports failure. *)
Definition module_refusing_init : NativeModule :=
  mkNativeModule (exports complete_module)
    []
    (fun s _ _ => (false, s))
    (fun s _ => (true, s)) (fun s _ => (true, s)) (fun s _ => (true, s))
    (fun _ => true).

(** A file system with these three modules. *)
Definition demo_fs (path : string) : option NativeModule :=
  if decide (path = "./Mediapipe_Hand_Tracking.dll") then Some complete_module
  else if decide (path = "./incomplete.dll") then Some module_without_detect_frame
  else if decide (path = "./refusing.dll") then Some module_refusing_init
  else None.

(** The loader after the module without [detect-frame] was loaded. *)
Definition loaded_incomplete : Loader :=
  snd (Load demo_fs "./incomplete.dll" unloaded_loader).

(** Modelled from the spec: a process that uses a loader.  Unload releases
    the module handle only; releasing the internal state of the module is
    the work of Release, which must come first (section 4.1).  So the
    native modules stay in the reach of the process, each with the
    internal state it holds, and a module that is loaded again is found as
    it was left. *)
Record Process := mkProcess {
  modules : gmap string NativeModule;
  loader : Loader;
  loaded_from : option string
}.

(** The modules after the loader gave up its handle: the module it held
    goes back under its path, with the internal state it has now. *)
Definition put_back (p : Process) : gmap string NativeModule :=
  match handle (loader p), loaded_from p with
  | Some m, Some path => <[path := m]> (modules p)
  | _, _ => modules p
  end.

(** One call of the client on the loader of the process. *)
Definition process_exec (c : Command) (p : Process) : option (Reply * Process) :=
  '(r, ld') ← exec (fun path => modules p !! path) c (loader p);
  Some (r, match c, r with
           | CLoad path, RStatus Ok => mkProcess (modules p) ld' (Some path)
           | CUnload, _ => mkProcess (put_back p) ld' None
           | _, _ => mkProcess (modules p) ld' (loaded_from p)
           end).

Fixpoint process_exec_all (cs : list Command) (p : Process)
    : option (list Reply * Process) :=
  match cs with
  | [] => Some ([], p)
  | c :: rest =>
      '(r, p1) ← process_exec c p;
      '(rs, p2) ← process_exec_all rest p1;
      Some (r :: rs, p2)
  end.

(** Load, ResolveAll, Init, Release, Unload in a row, as
    [HandTrackingDllTest] calls them, without looking at the results. *)
Definition full_cycle (path configPath : string) (flags : list bool)
    : Process -> option (list Reply * Process) :=
  process_exec_all
    [CLoad path; CResolveAll; CInit configPath flags; CInvoke Release; CUnload].


(** The same calls without the release. *)
Definition cycle_without_release (path configPath : string) (flags : list bool)
    : Process -> option (list Reply * Process) :=
  process_exec_all [CLoad path; CResolveAll; CInit configPath flags; CUnload].



(** A process in reach of the three modules, its loader unloaded. *)
Definition demo_process : Process :=
  mkProcess
    (list_to_map [("./Mediapipe_Hand_Tracking.dll", complete_module);
                  ("./incomplete.dll", module_without_detect_frame);
                  ("./refusing.dll", module_refusing_init)])
    unloaded_loader None.

(* ===================================================================== *)
(** ** The gesture callback and the pictures drawn                        *)
(* ===================================================================== *)

(** A line written to [std::cout] by [GestureResultCallBackImpl]: the
    frame index, or the number of a hand and the label of its gesture. *)
Inductive ConsoleLine :=
| ImageIndexLine (image_index : Z)
| HandResultLine (i : Z) (label : string).

(** The loop of [GestureResultCallBackImpl] from hand [i] on, for [n] more
    hands: one line per hand, with [GetGestureResult(recogn_result[i])]. *)
Fixpoint print_results (n : nat) (i : Z) (recogn_result : Z -> Z)
    (out : list ConsoleLine) : list ConsoleLine :=
  match n with
  | O => out
  | S n' =>
      print_results n' (i + 1) recogn_result
        (out ++ [HandResultLine i (GetGestureResult (recogn_result i))])
  end.

(** [void GestureResultCallBackImpl(int image_index, int* recogn_result,
    int count)]: what it writes, line by line.  [recogn_result] is a raw
    pointer: the memory behind it is a function of the index. *)
Definition GestureResultCallBackImpl (image_index : Z) (recogn_result : Z -> Z)
    (count : Z) : list ConsoleLine :=
  print_results (Z.to_nat count) 0 recogn_result [ImageIndexLine image_index].

(** The point in slot [i] of the buffer. *)
Definition buffer_point (g : Globals) (i : Z) : Point :=
  default (mkPoint 0 0) (handKPs g !! Z.to_nat i).

(** The 21 lines of the hand whose joints start at [offset], between the
    points [pts]. *)
Definition hand_lines (pts : Z -> Point) (offset : Z) : Mat :=
  map (fun seg => Line (pts (offset + fst seg)) (pts (offset + snd seg)) (0, 255, 0) 2)
      hand_segments.

(** The picture of [n] key points [pts]: a filled red circle of radius 6
    on each, then the green lines of every complete hand. *)
Definition hand_picture (pts : Z -> Point) (n : Z) : Mat :=
  map (fun i => Circle (pts i) 6 (0, 0, 255) (-1)) (seqZ 0 n)
  ++ flat_map (hand_lines pts) (hand_offsets n).

(** An access inside the 42 slots of the buffer. *)
Definition in_buffer (a : Access) : Prop := 0 <= access_index a < 42.

(** The buffer has its 42 slots and was never accessed outside them. *)
Definition buffer_intact (g : Globals) : Prop :=
  length (handKPs g) = 42%nat /\ Forall in_buffer (kp_accesses g).

(** The events at which the loop is left: the camera gives no frame, or a
    key is pressed at the end of the pass. *)
Definition stops (ev : FrameEvent) : Prop :=
  read_ok ev = false \/ frame_empty ev = true \/ key ev >= 0.

(** What one pass of the loop draws, read off the event alone: the picture
    of the landmarks of the last callback made during the call, cut at 42,
    when the call succeeded; nothing when there was no callback. *)
Definition expected_frame (ev : FrameEvent) : Mat :=
  match last (landmark_calls ev) with
  | Some c =>
      if detect_ok ev
      then hand_picture (fun i => cv_Point (inv_infos c i)) (Z.min (inv_count c) 42)
      else []
  | None => []
  end.

(** Every callback of every event delivers representable landmarks. *)
Definition events_representable (evs : list FrameEvent) : bool :=
  forallb (fun ev =>
             forallb (fun c => landmarks_representable (inv_infos c)) (landmark_calls ev))
          evs.

(** The size of the frame passed with a detect call, and of an event. *)
Definition call_size (c : DetectCall) : Z * Z := (dc_width c, dc_height c).
Definition event_size (ev : FrameEvent) : Z * Z := (frame_cols ev, frame_rows ev).

(* ===================================================================== *)
(** * Properties                                                          *)
(* ===================================================================== *)

(** ** The lookup tables *)

Lemma GetGestureResult_outside (r : Z) :
  ~ (1 <= r <= 9) -> GetGestureResult r = unknown_gesture.
Proof.
  intros Hr. destruct r as [|p|p]; try reflexivity.
  do 4 (try destruct p as [p|p|]); try reflexivity; lia.
Qed.

Lemma unknown_gesture_not_a_label : unknown_gesture ∉ gesture_labels.
Proof.
  unfold gesture_labels. intros H.
  repeat (apply elem_of_cons in H as [H|H]; [discriminate H|]).
  by apply elem_of_nil in H.
Qed.

(** C5: for every integer, [GetGestureResult] returns one of the nine pose
    labels exactly when the input is in 1..9, with 1 to 9 mapped to One,
    Two, Three, Four, Five, Six, ThumbUp, Ok, Fist in this order, and
    returns the unknown-gesture label for every other integer, -1
    included. *)
Theorem GetGestureResult_labels (r : Z) :
  (GetGestureResult r ∈ gesture_labels <-> 1 <= r <= 9) /\
  (1 <= r <= 9 -> gesture_labels !! Z.to_nat (r - 1) = Some (GetGestureResult r)) /\
  (~ (1 <= r <= 9) -> GetGestureResult r = unknown_gesture) /\
  GetGestureResult (-1) = unknown_gesture /\
  map GetGestureResult [1; 2; 3; 4; 5; 6; 7; 8; 9]
    = ["One"; "Two"; "Three"; "Four"; "Five"; "Six"; "ThumbUp"; "Ok"; "Fist"].
Proof.
  assert (Hin : 1 <= r <= 9 ->
                gesture_labels !! Z.to_nat (r - 1) = Some (GetGestureResult r)).
  { intros Hr.
    assert (r = 1 \/ r = 2 \/ r = 3 \/ r = 4 \/ r = 5 \/ r = 6 \/ r = 7 \/
            r = 8 \/ r = 9) as Hc by lia.
    repeat (destruct Hc as [-> | Hc]; [reflexivity|]). by subst r. }
  split_and!; try done.
  - split.
    + intros Hel. destruct (decide (1 <= r <= 9)) as [|Hout]; [done|].
      rewrite (GetGestureResult_outside r Hout) in Hel.
      by apply unknown_gesture_not_a_label in Hel.
    + intros Hr. eapply list_elem_of_lookup_2, Hin, Hr.
  - apply GetGestureResult_outside.
Qed.

Lemma GetArmUpAndDownResult_other (r : Z) :
  r <> 1 -> r <> 2 -> GetArmUpAndDownResult r = unknown_arm.
Proof.
  intros H1 H2. destruct r as [|p|p]; try reflexivity.
  - do 2 (try destruct p as [p|p|]); try reflexivity; lia.
  - destruct p; reflexivity.
Qed.

(** C6: for every integer, [GetArmUpAndDownResult] returns the arm-raised
    label exactly for 1, the arm-lowered label exactly for 2, and the
    unknown label for every other integer, -1 included. *)
Theorem GetArmUpAndDownResult_labels (r : Z) :
  (GetArmUpAndDownResult r = arm_raised <-> r = 1) /\
  (GetArmUpAndDownResult r = arm_lowered <-> r = 2) /\
  (r <> 1 -> r <> 2 -> GetArmUpAndDownResult r = unknown_arm) /\
  GetArmUpAndDownResult (-1) = unknown_arm.
Proof.
  split_and!; try done.
  - split; [|by intros ->].
    intros H. destruct (decide (r = 1)) as [|N1]; [done|].
    destruct (decide (r = 2)) as [->|N2]; [discriminate H|].
    rewrite GetArmUpAndDownResult_other in H by done. discriminate H.
  - split; [|by intros ->].
    intros H. destruct (decide (r = 2)) as [|N2]; [done|].
    destruct (decide (r = 1)) as [->|N1]; [discriminate H|].
    rewrite GetArmUpAndDownResult_other in H by done. discriminate H.
  - apply GetArmUpAndDownResult_other.
Qed.

(** ** The landmarks callback and the buffer *)

Lemma bind_some {A B} (m : Prog A) (k : A -> Prog B) g a g1 :
  m g = Some (a, g1) -> bind m k g = k a g1.
Proof. intros H. unfold bind. by rewrite H. Qed.

Lemma store_kp_some i p g :
  0 <= i < Z.of_nat (length (handKPs g)) ->
  store_kp i p g =
    Some (tt, mkGlobals (<[Z.to_nat i := p]> (handKPs g)) (gValidKpCount g)
                        (kp_accesses g ++ [KpWrite i])).
Proof. intros H. unfold store_kp. by rewrite decide_True. Qed.

Lemma load_kp_some i p g :
  0 <= i -> handKPs g !! Z.to_nat i = Some p ->
  load_kp i g =
    Some (p, mkGlobals (handKPs g) (gValidKpCount g) (kp_accesses g ++ [KpRead i])).
Proof. intros H Hp. unfold load_kp. rewrite decide_True by done. by rewrite Hp. Qed.

(** The copy loop from index [i] on, for [n] more iterations: it never
    leaves the vector, writes the slots [i .. min (i + n) 42 - 1] in
    increasing order and nothing else. *)
Lemma copy_loop_spec (infos : Z -> PoseInfo) (n : nat) : forall (i : Z) (g : Globals),
  0 <= i -> length (handKPs g) = 42%nat ->
  exists g',
    for_from n i (copy_body infos) tt g = Some (tt, g') /\
    length (handKPs g') = 42%nat /\
    gValidKpCount g' = gValidKpCount g /\
    kp_accesses g' =
      kp_accesses g ++ map KpWrite (seqZ i (Z.min (i + Z.of_nat n) 42 - i)) /\
    (forall j, i <= j < Z.min (i + Z.of_nat n) 42 ->
               handKPs g' !! Z.to_nat j = Some (cv_Point (infos j))) /\
    (forall j : nat, Z.of_nat j < i \/ Z.min (i + Z.of_nat n) 42 <= Z.of_nat j ->
               handKPs g' !! j = handKPs g !! j).
Proof.
  induction n as [|n IH]; intros i g Hi Hlen.
  - exists g. cbn [for_from]. split_and!; try done.
    + rewrite seqZ_nil by lia. by rewrite app_nil_r.
    + intros j Hj. lia.
  - cbn [for_from]. unfold copy_body at 1.
    destruct (decide (i < 42)) as [Hlt|Hge].
    + rewrite (bind_some _ _ g tt _ (store_kp_some i _ g ltac:(lia))).
      set (g1 := mkGlobals _ _ _).
      destruct (IH (i + 1) g1 ltac:(lia)) as (g' & Hrun & Hl & Hc & Hacc & Hnew & Hold).
      { subst g1; cbn. by rewrite length_insert. }
      exists g'. split_and!; try done.
      * rewrite Hacc. subst g1; cbn [kp_accesses].
        rewrite (seqZ_cons i) by lia. cbn [map].
        rewrite <- app_assoc. cbn [app].
        replace (Z.succ i) with (i + 1) by lia.
        replace (Z.pred (Z.min (i + Z.of_nat (S n)) 42 - i))
          with (Z.min (i + 1 + Z.of_nat n) 42 - (i + 1)) by lia.
        done.
      * intros j Hj. destruct (decide (j = i)) as [->|Hne].
        -- rewrite Hold by lia. subst g1; cbn [handKPs].
           apply list_lookup_insert_eq. lia.
        -- apply Hnew. lia.
      * intros j Hj. rewrite Hold by lia. subst g1; cbn [handKPs].
        apply list_lookup_insert_ne. lia.
    + rewrite (bind_some _ _ g tt g) by done.
      destruct (IH (i + 1) g ltac:(lia) Hlen) as (g' & Hrun & Hl & Hc & Hacc & Hnew & Hold).
      exists g'. split_and!; try done.
      * rewrite Hacc. rewrite !seqZ_nil by lia. done.
      * intros j Hj. lia.
      * intros j Hj. apply Hold. lia.
Qed.

(** What one call of the callback does, for every [count]. *)
Lemma LandmarksCallBackImpl_spec (image_index : Z) (infos : Z -> PoseInfo)
    (count : Z) (g : Globals) :
  length (handKPs g) = 42%nat ->
  exists g',
    LandmarksCallBackImpl image_index infos count g = Some (tt, g') /\
    length (handKPs g') = 42%nat /\
    gValidKpCount g' = Z.min count 42 /\
    kp_accesses g' = kp_accesses g ++ map KpWrite (seqZ 0 (Z.min count 42)) /\
    (forall j, 0 <= j < Z.min count 42 ->
               handKPs g' !! Z.to_nat j = Some (cv_Point (infos j))) /\
    (forall j : nat, Z.min count 42 <= Z.of_nat j -> handKPs g' !! j = handKPs g !! j).
Proof.
  intros Hlen. unfold LandmarksCallBackImpl.
  set (g1 := mkGlobals (handKPs g) (Z.min count 42) (kp_accesses g)).
  assert (Hpre : forall k : unit -> Prog unit,
            (run set_count count;
             do c <- get_count;
             run (if decide (c > 42) then set_count 42 else ret tt);
             k tt) g = k tt g1).
  { intros k. unfold bind, set_count, get_count; cbn.
    destruct (decide (count > 42)); cbn; subst g1; do 2 f_equal; lia. }
  rewrite (Hpre (fun _ => for_upto count _ tt)).
  destruct (copy_loop_spec infos (Z.to_nat count) 0 g1 ltac:(lia) Hlen)
    as (g' & Hrun & Hl & Hc & Hacc & Hnew & Hold).
  assert (Hm : Z.min (0 + Z.of_nat (Z.to_nat count)) 42 - 0 = Z.min count 42 \/
               (count < 0 /\ Z.min (0 + Z.of_nat (Z.to_nat count)) 42 - 0 = 0)) by lia.
  exists g'. split_and!; try done.
  - rewrite Hacc. subst g1; cbn [kp_accesses]. f_equal. f_equal.
    destruct Hm as [->|[Hneg ->]]; [done|]. by rewrite !seqZ_nil by lia.
  - intros j Hj. apply Hnew. lia.
  - intros j Hj. rewrite Hold; [done|]. lia.
Qed.

(** C9: for every call of the landmarks callback with a non-negative count,
    also one outside {21, 42}, on the 42-element buffer: the call runs to
    its end, the buffer accesses it makes are exactly the writes to the
    slots 0 .. min(count, 42) - 1, so none at an index of 42 or more, the
    slots from min(count, 42) on keep their content, and afterwards
    [gValidKpCount] is at most 42. *)
Theorem LandmarksCallBackImpl_within_buffer (image_index : Z)
    (infos : Z -> PoseInfo) (count : Z) (g : Globals) :
  0 <= count ->
  length (handKPs g) = 42%nat ->
  exists g',
    LandmarksCallBackImpl image_index infos count g = Some (tt, g') /\
    kp_accesses g' = kp_accesses g ++ map KpWrite (seqZ 0 (Z.min count 42)) /\
    Forall (fun a => 0 <= access_index a < Z.min count 42 /\ access_index a < 42)
           (map KpWrite (seqZ 0 (Z.min count 42))) /\
    (forall j : nat, Z.min count 42 <= Z.of_nat j -> handKPs g' !! j = handKPs g !! j) /\
    length (handKPs g') = 42%nat /\
    0 <= gValidKpCount g' <= 42.
Proof.
  intros Hcount Hlen.
  destruct (LandmarksCallBackImpl_spec image_index infos count g Hlen)
    as (g' & Hrun & Hl & Hc & Hacc & Hnew & Hold).
  exists g'. split_and!; try done; try lia.
  apply Forall_forall. intros a Ha.
  apply list_elem_of_fmap in Ha as (i & -> & Hi).
  apply elem_of_seqZ in Hi. cbn. lia.
Qed.

Lemma LandmarksCallBackImpl_within_buffer_witness :
  exists g',
    LandmarksCallBackImpl 7 (fun _ => mkPoseInfo (3 # 2) (5 # 1)) 50 initial_globals
      = Some (tt, g') /\
    kp_accesses g' = kp_accesses initial_globals ++ map KpWrite (seqZ 0 (Z.min 50 42)) /\
    Forall (fun a => 0 <= access_index a < Z.min 50 42 /\ access_index a < 42)
           (map KpWrite (seqZ 0 (Z.min 50 42))) /\
    (forall j : nat, Z.min 50 42 <= Z.of_nat j ->
                     handKPs g' !! j = handKPs initial_globals !! j) /\
    length (handKPs g') = 42%nat /\
    0 <= gValidKpCount g' <= 42.
Proof.
  apply (LandmarksCallBackImpl_within_buffer 7 (fun _ => mkPoseInfo (3 # 2) (5 # 1))
           50 initial_globals); [lia | reflexivity].
Defined.

(** ** Drawing *)

Lemma with_accesses_app g l1 l2 :
  with_accesses (with_accesses g l1) l2 = with_accesses g (l1 ++ l2).
Proof. unfold with_accesses; cbn. by rewrite app_assoc. Qed.

Lemma with_accesses_nil g : with_accesses g [] = g.
Proof. destruct g. unfold with_accesses; cbn. by rewrite app_nil_r. Qed.

Lemma get_count_some g : get_count g = Some (gValidKpCount g, g).
Proof. reflexivity. Qed.

Lemma load_kp_in_bounds i g :
  0 <= i < Z.of_nat (length (handKPs g)) ->
  exists p, handKPs g !! Z.to_nat i = Some p /\
            load_kp i g = Some (p, with_accesses g [KpRead i]).
Proof.
  intros Hi.
  destruct (lookup_lt_is_Some_2 (handKPs g) (Z.to_nat i) ltac:(lia)) as [p Hp].
  exists p. split; [done|]. apply load_kp_some; [lia | done].
Qed.

(** The circle loop from index [i] on reads the slots [i .. i + n - 1]. *)
Lemma circle_loop_spec (n : nat) : forall (i : Z) (img : Mat) (g : Globals),
  0 <= i -> i + Z.of_nat n <= Z.of_nat (length (handKPs g)) ->
  exists img',
    for_from n i (fun i img =>
        do p <- load_kp i; ret (img ++ [Circle p 6 (0, 0, 255) (-1)])) img g
      = Some (img', with_accesses g (map KpRead (seqZ i (Z.of_nat n)))).
Proof.
  induction n as [|n IH]; intros i img g Hi Hlen.
  - exists img. cbn. by rewrite with_accesses_nil.
  - cbn [for_from].
    destruct (load_kp_in_bounds i g ltac:(lia)) as (p & _ & Hload).
    rewrite (bind_some _ _ g (img ++ [Circle p 6 (0, 0, 255) (-1)])
               (with_accesses g [KpRead i])).
    2:{ by rewrite (bind_some _ _ g p _ Hload). }
    destruct (IH (i + 1) (img ++ [Circle p 6 (0, 0, 255) (-1)])
                 (with_accesses g [KpRead i]) ltac:(lia)) as (img' & Hrun).
    { cbn [with_accesses handKPs]. lia. }
    exists img'. rewrite Hrun, with_accesses_app. do 3 f_equal.
    rewrite (seqZ_cons i) by lia. cbn [map app]. do 3 f_equal; lia.
Qed.

(** The 21 [cv::line] calls of one hand read joints [offset .. offset + 20]. *)
Lemma draw_segments_spec (offset : Z) (segs : list (Z * Z)) :
  forall (img : Mat) (g : Globals),
  Forall (fun seg => 0 <= offset + fst seg < Z.of_nat (length (handKPs g)) /\
                     0 <= offset + snd seg < Z.of_nat (length (handKPs g))) segs ->
  exists img',
    draw_segments offset segs img g
      = Some (img', with_accesses g
                (flat_map (fun seg => [KpRead (offset + fst seg);
                                       KpRead (offset + snd seg)]) segs)).
Proof.
  induction segs as [|seg segs IH]; intros img g Hall.
  - exists img. cbn. by rewrite with_accesses_nil.
  - apply Forall_cons in Hall as [[H1 H2] Hall].
    cbn [draw_segments]. unfold draw_segment.
    destruct (load_kp_in_bounds _ g H1) as (p1 & _ & Hl1).
    destruct (load_kp_in_bounds (offset + snd seg) (with_accesses g [KpRead (offset + fst seg)]) H2)
      as (p2 & _ & Hl2).
    rewrite (bind_some _ _ g (img ++ [Line p1 p2 (0, 255, 0) 2])
               (with_accesses (with_accesses g [KpRead (offset + fst seg)])
                              [KpRead (offset + snd seg)])).
    2:{ rewrite (bind_some _ _ g p1 _ Hl1). by rewrite (bind_some _ _ _ p2 _ Hl2). }
    destruct (IH (img ++ [Line p1 p2 (0, 255, 0) 2])
                 (with_accesses (with_accesses g [KpRead (offset + fst seg)])
                                [KpRead (offset + snd seg)]) Hall) as (img' & Hrun).
    exists img'. rewrite Hrun, !with_accesses_app. done.
Qed.

Lemma hand_segments_joints :
  Forall (fun seg => 0 <= fst seg <= 20 /\ 0 <= snd seg <= 20) hand_segments.
Proof. unfold hand_segments. repeat constructor; cbn; lia. Qed.

Lemma segment_reads_bounds (offset : Z) (a : Access) :
  a ∈ segment_reads offset -> offset <= access_index a <= offset + 20.
Proof.
  unfold segment_reads. intros Ha.
  apply list_elem_of_In, in_flat_map in Ha as (seg & Hseg & Ha).
  apply list_elem_of_In in Hseg, Ha.
  pose proof hand_segments_joints as Hj.
  rewrite Forall_forall in Hj. specialize (Hj seg Hseg).
  apply elem_of_cons in Ha as [->|Ha]; [cbn; lia|].
  apply elem_of_cons in Ha as [->|Ha]; [cbn; lia|].
  by apply elem_of_nil in Ha.
Qed.

(** The loop over the hands, entered with [offset = 21 * c], for [n] more
    hands. *)
Lemma hand_loop_spec (n : nat) : forall (i c : Z) (img : Mat) (g : Globals),
  0 <= c -> 21 * (c + Z.of_nat n) <= Z.of_nat (length (handKPs g)) ->
  exists img',
    for_from n i (fun _ (st : Z * Mat) =>
        do img' <- draw_segments (fst st) hand_segments (snd st);
        ret (fst st + 21, img')) (21 * c, img) g
      = Some ((21 * (c + Z.of_nat n), img'),
              with_accesses g
                (flat_map segment_reads (map (fun k => 21 * k) (seqZ c (Z.of_nat n))))).
Proof.
  induction n as [|n IH]; intros i c img g Hc Hlen.
  - exists img. cbn [for_from Z.of_nat]. rewrite seqZ_nil by lia.
    cbn [map flat_map]. rewrite with_accesses_nil, Z.add_0_r. done.
  - cbn [for_from fst snd].
    destruct (draw_segments_spec (21 * c) hand_segments img g) as (img1 & Hd).
    { eapply Forall_impl; [apply hand_segments_joints|]. cbn. intros seg Hseg. lia. }
    rewrite (bind_some _ _ g (21 * (c + 1), img1)
               (with_accesses g (segment_reads (21 * c)))).
    2:{ rewrite (bind_some _ _ g img1 _ Hd). unfold ret. do 3 f_equal. lia. }
    destruct (IH (i + 1) (c + 1) img1 (with_accesses g (segment_reads (21 * c)))
                ltac:(lia)) as (img' & Hrun).
    { cbn [with_accesses handKPs]. lia. }
    exists img'. rewrite Hrun, with_accesses_app.
    rewrite (seqZ_cons c (Z.of_nat (S n))) by lia. cbn [map flat_map].
    replace (Z.succ c) with (c + 1) by lia.
    replace (Z.pred (Z.of_nat (S n))) with (Z.of_nat n) by lia.
    replace (c + 1 + Z.of_nat n) with (c + Z.of_nat (S n)) by lia.
    done.
Qed.

Lemma hand_offsets_cases (n : Z) :
  0 <= n <= 42 ->
  Z.quot n 21 <= 2 /\
  hand_offsets n = take (Z.to_nat (Z.quot n 21)) [0; 21].
Proof.
  intros Hn. unfold hand_offsets.
  assert (Hq : Z.quot n 21 = 0 \/ Z.quot n 21 = 1 \/ Z.quot n 21 = 2).
  { rewrite Z.quot_div_nonneg by lia.
    pose proof (Z.div_le_upper_bound n 21 2 ltac:(lia) ltac:(lia)).
    pose proof (Z.div_pos n 21 ltac:(lia) ltac:(lia)). lia. }
  destruct Hq as [-> | [-> | ->]]; split; (lia || reflexivity).
Qed.

(** What [DrawHandKeyponts] does on a buffer of 42 slots when
    [gValidKpCount] is between 0 and 42. *)
Lemma DrawHandKeyponts_spec (srcImage : Mat) (g : Globals) :
  length (handKPs g) = 42%nat ->
  0 <= gValidKpCount g <= 42 ->
  let n := gValidKpCount g in
  exists img',
    DrawHandKeyponts srcImage g
      = Some (img', with_accesses g (circle_reads n ++ line_reads n)) /\
    Forall (fun a => 0 <= access_index a < 42) (circle_reads n ++ line_reads n) /\
    Forall (fun a => 0 <= access_index a < n) (circle_reads n) /\
    Z.quot n 21 <= 2 /\
    hand_offsets n = take (Z.to_nat (Z.quot n 21)) [0; 21] /\
    (forall offset a, offset ∈ hand_offsets n -> a ∈ segment_reads offset ->
       (offset = 0 \/ offset = 21) /\
       offset <= access_index a <= offset + 20 /\ offset + 20 <= 41).
Proof.
  intros Hlen Hn n.
  destruct (hand_offsets_cases n Hn) as [Hq Hoff].
  assert (Hq0 : 0 <= Z.quot n 21) by (apply Z.quot_pos; lia).
  assert (Hoffs : forall offset, offset ∈ hand_offsets n -> offset = 0 \/ offset = 21).
  { intros offset Hin. rewrite Hoff in Hin. apply elem_of_take in Hin as (k & Hk & _).
    destruct k as [|[|k]]; cbn in Hk; [left | right | discriminate Hk]; congruence. }
  assert (Hcirc : Forall (fun a => 0 <= access_index a < n) (circle_reads n)).
  { apply Forall_forall. intros a Ha. unfold circle_reads in Ha.
    apply list_elem_of_fmap in Ha as (i & -> & Hi). apply elem_of_seqZ in Hi. cbn. lia. }
  assert (Hline : forall offset a, offset ∈ hand_offsets n -> a ∈ segment_reads offset ->
            (offset = 0 \/ offset = 21) /\
            offset <= access_index a <= offset + 20 /\ offset + 20 <= 41).
  { intros offset a Hin Ha. pose proof (Hoffs offset Hin).
    pose proof (segment_reads_bounds offset a Ha). lia. }
  unfold DrawHandKeyponts.
  destruct (circle_loop_spec (Z.to_nat n) 0 srcImage g ltac:(lia) ltac:(lia))
    as (img1 & Hc).
  destruct (hand_loop_spec (Z.to_nat (Z.quot n 21)) 0 0 img1
              (with_accesses g (map KpRead (seqZ 0 (Z.of_nat (Z.to_nat n)))))
              ltac:(lia)) as (img2 & Hh).
  { cbn [with_accesses handKPs]. lia. }
  exists img2. split_and!; try done.
  - rewrite (bind_some _ _ g _ _ (get_count_some g)).
    unfold for_upto. fold n. rewrite (bind_some _ _ g img1 _ Hc).
    rewrite (bind_some _ _ _ _ _ (get_count_some _)).
    cbn [with_accesses gValidKpCount]. fold n.
    change (21 * 0) with 0 in Hh. rewrite (bind_some _ _ _ _ _ Hh).
    unfold ret. cbn [snd]. rewrite with_accesses_app.
    unfold circle_reads, line_reads, hand_offsets.
    rewrite !Z2Nat.id by lia. done.
  - apply Forall_app. split.
    + eapply Forall_impl; [exact Hcirc|]. cbn. intros a Ha. lia.
    + apply Forall_forall. intros a Ha. unfold line_reads in Ha.
      apply list_elem_of_In, in_flat_map in Ha as (offset & Hin & Ha).
      apply list_elem_of_In in Hin, Ha.
      destruct (Hline offset a Hin Ha) as (? & ? & ?). lia.
Qed.

(** C10: with the 42-element buffer and [0 <= gValidKpCount <= 42],
    [DrawHandKeyponts] runs to its end and every buffer access it makes is
    inside the buffer: the circles read the slots 0 .. gValidKpCount - 1;
    the lines are drawn for gValidKpCount / 21 hands, at most 2, at the
    offsets 0 and 21, and read slots between the offset and the offset
    plus 20, so at most 41.  The globals are left as they were. *)
Theorem DrawHandKeyponts_in_bounds (srcImage : Mat) (g : Globals) :
  length (handKPs g) = 42%nat ->
  0 <= gValidKpCount g <= 42 ->
  let n := gValidKpCount g in
  exists img',
    DrawHandKeyponts srcImage g
      = Some (img', with_accesses g (circle_reads n ++ line_reads n)) /\
    Forall (fun a => 0 <= access_index a < 42) (circle_reads n ++ line_reads n) /\
    Forall (fun a => 0 <= access_index a < n) (circle_reads n) /\
    Z.quot n 21 <= 2 /\
    hand_offsets n = take (Z.to_nat (Z.quot n 21)) [0; 21] /\
    (forall offset a, offset ∈ hand_offsets n -> a ∈ segment_reads offset ->
       (offset = 0 \/ offset = 21) /\
       offset <= access_index a <= offset + 20 /\ offset + 20 <= 41).
Proof. apply DrawHandKeyponts_spec. Qed.

Lemma DrawHandKeyponts_in_bounds_witness :
  length (handKPs initial_globals) = 42%nat /\
  0 <= gValidKpCount initial_globals <= 42 /\
  exists img',
    DrawHandKeyponts [] initial_globals
      = Some (img', with_accesses initial_globals (circle_reads 21 ++ line_reads 21)) /\
    Forall (fun a => 0 <= access_index a < 42) (circle_reads 21 ++ line_reads 21).
Proof.
  split; [reflexivity|]. split; [cbn; lia|].
  destruct (DrawHandKeyponts_in_bounds [] initial_globals eq_refl ltac:(cbn; lia))
    as (img' & Hrun & Hall & _).
  exists img'. split; [exact Hrun | exact Hall].
Defined.

(** ** The count and the order of the landmarks *)

Lemma converts_float_to_int (q : Q) :
  converts (Finite q) = true -> float_to_int (Finite q) = truncate q.
Proof. intros H. unfold float_to_int. by rewrite H. Qed.

Lemma landmarks_representable_slot (infos : Z -> PoseInfo) (j : Z) :
  landmarks_representable infos = true -> 0 <= j < 42 ->
  representable (infos j) = true.
Proof.
  unfold landmarks_representable. rewrite forallb_forall. intros Hall Hj.
  apply Hall, list_elem_of_In, elem_of_seqZ. lia.
Qed.




(** ** The capture loop *)

Lemma wrap_int_in_range (z : Z) : - 2 ^ 31 <= z < 2 ^ 31 -> wrap_int z = z.
Proof.
  intros Hz. unfold wrap_int. rewrite Z.mod_small by lia. lia.
Qed.

Lemma set_count_some c g :
  set_count c g = Some (tt, mkGlobals (handKPs g) c (kp_accesses g)).
Proof. reflexivity. Qed.

(** Whatever callbacks the module makes, they run to their end and leave a
    buffer of 42 slots and a count of at most 42. *)
Lemma run_callbacks_spec (calls : list Invocation) : forall g : Globals,
  length (handKPs g) = 42%nat -> gValidKpCount g <= 42 ->
  exists g',
    run_callbacks calls g = Some (tt, g') /\
    length (handKPs g') = 42%nat /\ gValidKpCount g' <= 42.
Proof.
  induction calls as [|c calls IH]; intros g Hlen Hc.
  - exists g. done.
  - cbn [run_callbacks].
    destruct (LandmarksCallBackImpl_spec (inv_image_index c) (inv_infos c)
                (inv_count c) g Hlen) as (g1 & Hrun & Hl1 & Hc1 & _).
    rewrite (bind_some _ _ g tt g1 Hrun).
    apply IH; [done | lia].
Qed.

Lemma Detect_Frame_spec (ev : FrameEvent) (g : Globals) :
  length (handKPs g) = 42%nat -> gValidKpCount g <= 42 ->
  exists g',
    Detect_Frame ev g = Some (detect_ok ev, g') /\
    length (handKPs g') = 42%nat /\ gValidKpCount g' <= 42.
Proof.
  intros Hlen Hc. unfold Detect_Frame.
  destruct (run_callbacks_spec (landmark_calls ev) g Hlen Hc) as (g' & Hrun & Hl & Hc').
  exists g'. by rewrite (bind_some _ _ g tt g' Hrun).
Qed.

Lemma draw_if_detected_spec (ok : bool) (g : Globals) :
  length (handKPs g) = 42%nat -> gValidKpCount g <= 42 ->
  exists frame g',
    draw_if_detected ok g = Some (frame, g') /\ length (handKPs g') = 42%nat.
Proof.
  intros Hlen Hc. unfold draw_if_detected.
  destruct ok; [|by exists [], g].
  rewrite (bind_some _ _ g _ _ (get_count_some g)).
  destruct (decide (gValidKpCount g > 0)) as [Hpos|]; [|by exists [], g].
  destruct (DrawHandKeyponts_spec [] g Hlen ltac:(lia)) as (img & Hrun & _).
  eexists _, _. split; [exact Hrun | done].
Qed.

(** The loop entered with [image_index = k]: it runs to its end and the
    calls it adds to the log carry the indices k, k + 1, k + 2, ... *)
Lemma capture_loop_spec (evs : list FrameEvent) : forall (h : Harness) (g : Globals),
  length (handKPs g) = 42%nat ->
  0 <= image_index h ->
  image_index h + Z.of_nat (length evs) <= 2 ^ 31 ->
  exists h' g' (calls : nat),
    capture_loop evs h g = Some (h', g') /\
    length (handKPs g') = 42%nat /\
    (calls <= length evs)%nat /\
    map dc_image_index (detect_log h')
      = map dc_image_index (detect_log h) ++ seqZ (image_index h) (Z.of_nat calls).
Proof.
  induction evs as [|ev evs IH]; intros h g Hlen Hk Hfit.
  - exists h, g, 0%nat. cbn. rewrite seqZ_nil by lia. by rewrite app_nil_r.
  - cbn [capture_loop].
    destruct (read_ok ev); cbn [negb];
      [|exists h, g, 0%nat; cbn; rewrite seqZ_nil by lia; rewrite app_nil_r;
        split_and!; (done || lia)].
    destruct (frame_empty ev);
      [exists h, g, 0%nat; cbn; rewrite seqZ_nil by lia; rewrite app_nil_r;
       split_and!; (done || lia)|].
    rewrite (bind_some _ _ g tt _ (set_count_some 0 g)).
    destruct (Detect_Frame_spec ev (mkGlobals (handKPs g) 0 (kp_accesses g)) Hlen
                ltac:(cbn; lia)) as (g1 & Hdet & Hl1 & Hc1).
    rewrite (bind_some _ _ _ _ g1 Hdet).
    destruct (draw_if_detected_spec (detect_ok ev) g1 Hl1 Hc1) as (frame & g2 & Hdraw & Hl2).
    rewrite (bind_some _ _ g1 frame g2 Hdraw).
    cbn [image_index detect_log shown].
    destruct (decide (key ev >= 0)) as [Hkey|Hkey].
    + eexists _, g2, 1%nat. split; [reflexivity|].
      cbn [detect_log length]. rewrite map_app. cbn [map dc_image_index].
      split_and!; [done | lia | done].
    + cbn [length] in Hfit.
      destruct evs as [|ev' evs'].
      * eexists _, g2, 1%nat. split; [reflexivity|].
        cbn [detect_log length]. rewrite map_app. cbn [map dc_image_index].
        split_and!; [done | lia | done].
      * rewrite wrap_int_in_range by (cbn [length] in Hfit; lia).
        destruct (IH (mkHarness (image_index h + 1)
                        (detect_log h ++ [mkDetectCall (image_index h) (frame_cols ev)
                                            (frame_rows ev)])
                        (shown h ++ [frame])) g2 Hl2)
          as (h' & g' & calls & Hrun & Hl' & Hcalls & Hlog).
        { cbn [image_index]. lia. }
        { cbn [image_index]. lia. }
        exists h', g', (S calls). split; [exact Hrun|].
        split_and!; [done | cbn [length] in *; lia |].
        rewrite Hlog. cbn [detect_log image_index]. rewrite map_app.
        cbn [map dc_image_index]. rewrite <- app_assoc. cbn [app].
        rewrite (seqZ_cons (image_index h) (Z.of_nat (S calls))) by lia.
        replace (Z.succ (image_index h)) with (image_index h + 1) by lia.
        replace (Z.pred (Z.of_nat (S calls))) with (Z.of_nat calls) by lia.
        done.
Qed.

(** C8: in the capture loop the frame index passed to the detect-frame
    entry point starts at 0 and each further call receives the index of
    the call before plus one: the calls of a run carry 0, 1, 2, ... in this
    order.  (A run of at most 2^31 passes: beyond that the 32-bit counter
    has no next value.) *)
Theorem detect_frame_indices_count_up (evs : list FrameEvent) :
  Z.of_nat (length evs) <= 2 ^ 31 ->
  exists h' g',
    HandTrackingDllTest_loop evs initial_globals = Some (h', g') /\
    let indices := map dc_image_index (detect_log h') in
    indices = seqZ 0 (Z.of_nat (length indices)) /\
    (forall a, indices !! 0%nat = Some a -> a = 0) /\
    (forall (i : nat) a b,
       indices !! i = Some a -> indices !! S i = Some b -> b = a + 1).
Proof.
  intros Hfit. unfold HandTrackingDllTest_loop.
  destruct (capture_loop_spec evs (mkHarness 0 [] []) initial_globals eq_refl)
    as (h' & g' & calls & Hrun & _ & _ & Hlog); [cbn; lia | cbn; lia |].
  cbn [detect_log image_index map app] in Hlog.
  exists h', g'. split; [exact Hrun|]. cbn zeta.
  assert (Hlen : length (map dc_image_index (detect_log h')) = calls).
  { rewrite Hlog, length_seqZ. lia. }
  rewrite Hlen, Hlog. split_and!; [done | |].
  - intros a Ha. apply lookup_seqZ in Ha. lia.
  - intros i a b Ha Hb. apply lookup_seqZ in Ha, Hb. lia.
Qed.

Lemma detect_frame_indices_count_up_witness :
  exists h' g',
    HandTrackingDllTest_loop demo_events initial_globals = Some (h', g') /\
    let indices := map dc_image_index (detect_log h') in
    indices = seqZ 0 (Z.of_nat (length indices)) /\
    (forall a, indices !! 0%nat = Some a -> a = 0) /\
    (forall (i : nat) a b,
       indices !! i = Some a -> indices !! S i = Some b -> b = a + 1).
Proof.
  apply (detect_frame_indices_count_up demo_events). cbn. lia.
Defined.

Example demo_run_indices :
  (fun r => map dc_image_index (detect_log (fst r)))
    <$> HandTrackingDllTest_loop demo_events initial_globals = Some [0; 1; 2].
Proof. vm_compute. reflexivity. Qed.

(** ** The module loader *)

(** When resolution stops at a name, the module lacks that name and
    exports every required name before it. *)
Lemma resolve_inl (names : list string) (exported : gmap string nat) :
  forall (tbl : gmap string nat) (name : string),
  resolve names exported tbl = inl name ->
  exported !! name = None /\
  exists before after,
    names = before ++ name :: after /\
    forall s, s ∈ before -> is_Some (exported !! s).
Proof.
  induction names as [|n names IH]; intros tbl name Hres; [discriminate|].
  cbn [resolve] in Hres. destruct (exported !! n) as [callable|] eqn:Hn.
  - destruct (IH _ _ Hres) as (Hnone & before & after & -> & Hbefore).
    split; [done|]. exists (n :: before), after. split; [done|].
    intros s [Heq|Hs]%elem_of_cons; [subst s; by eexists | by apply Hbefore].
  - injection Hres as <-. split; [done|]. exists [], names. split; [done|].
    intros s Hs. by apply elem_of_nil in Hs.
Qed.

(** When resolution succeeds, the module exports every name and the table
    holds, for each of them, the callable the module exports. *)
Lemma resolve_inr (names : list string) (exported : gmap string nat) :
  forall (tbl tbl' : gmap string nat),
  resolve names exported tbl = inr tbl' ->
  (forall s, s ∈ names -> is_Some (exported !! s) /\ tbl' !! s = exported !! s) /\
  (forall s, s ∉ names -> tbl' !! s = tbl !! s).
Proof.
  induction names as [|n names IH]; intros tbl tbl' Hres.
  - injection Hres as <-. split; [|done]. intros s Hs. by apply elem_of_nil in Hs.
  - cbn [resolve] in Hres. destruct (exported !! n) as [callable|] eqn:Hn; [|discriminate].
    destruct (IH _ _ Hres) as [Hin Hout]. split.
    + intros s [Heq|Hs]%elem_of_cons; [subst s|by apply Hin].
      split; [by eexists|].
      destruct (decide (n ∈ names)) as [Hs|Hs]; [by apply Hin|].
      rewrite (Hout n Hs), Hn. apply lookup_insert_eq.
    + intros s Hs. apply not_elem_of_cons in Hs as [Hne Hs].
      rewrite (Hout s Hs). by apply lookup_insert_ne.
Qed.

Lemma ResolveAll_cases (ld : Loader) (m : NativeModule) :
  phase ld = Loaded -> handle ld = Some m ->
  (exists name,
     missing m name /\
     ResolveAll ld = Some (Failed (SymbolNotFound name), mkLoader Loaded (Some m) ∅)) \/
  (exists tbl,
     (forall s, s ∈ required_symbols ->
        is_Some (exports m !! s) /\ tbl !! s = exports m !! s) /\
     ResolveAll ld = Some (Ok, mkLoader Resolved (Some m) tbl)).
Proof.
  intros Hph Hh. unfold ResolveAll. rewrite Hph, Hh.
  destruct (resolve required_symbols (exports m) ∅) as [name|tbl] eqn:Hres.
  - left. exists name. split; [|done].
    destruct (resolve_inl _ _ _ _ Hres) as (Hnone & before & after & Heq & _).
    split; [|done]. rewrite Heq. apply elem_of_app. right. by left.
  - right. exists tbl. split; [|done].
    by destruct (resolve_inr _ _ _ _ Hres) as [Hin _].
Qed.

Lemma ResolveAll_loaded (ld : Loader) (m : NativeModule) :
  phase ld = Loaded -> handle ld = Some m ->
  ResolveAll ld = ResolveAll (mkLoader Loaded (Some m) ∅).
Proof. intros Hph Hh. unfold ResolveAll. by rewrite Hph, Hh. Qed.

Lemma failed_resolve_unusable (m : NativeModule) :
  unusable (mkLoader Loaded (Some m) ∅).
Proof. by split_and!. Qed.

(** C3: for a loaded module, [ResolveAll] either resolves every required
    symbol into the table, or, when some required symbol is absent, fails
    with [SymbolNotFound] naming an absent required symbol (the absent one
    when there is only one) and leaves no entry point in the table: the
    loader stays loaded but unusable, and resolving again fails the same
    way, until it is unloaded and a module with every symbol is loaded. *)
Theorem ResolveAll_all_or_nothing (ld : Loader) (m : NativeModule) :
  phase ld = Loaded ->
  handle ld = Some m ->
  ((exists s, missing m s) ->
     exists name ld',
       ResolveAll ld = Some (Failed (SymbolNotFound name), ld') /\
       missing m name /\
       (forall s, missing m s -> (forall s', missing m s' -> s' = s) -> name = s) /\
       unusable ld' /\
       (forall name', table ld' !! name' = None) /\
       ResolveAll ld' = Some (Failed (SymbolNotFound name), ld') /\
       (forall fs path m',
          fs path = Some m' -> (forall s, ~ missing m' s) ->
          exists ld'',
            ResolveAll (snd (Load fs path (snd (Unload ld')))) = Some (Ok, ld'') /\
            phase ld'' = Resolved)) /\
  ((forall s, ~ missing m s) ->
     exists ld',
       ResolveAll ld = Some (Ok, ld') /\
       phase ld' = Resolved /\
       forall s, s ∈ required_symbols ->
         is_Some (table ld' !! s) /\ table ld' !! s = exports m !! s).
Proof.
  intros Hph Hh. split.
  - intros [s Hs].
    destruct (ResolveAll_cases ld m Hph Hh) as [(name & Hmiss & Hres)|(tbl & Hall & _)].
    2:{ destruct Hs as [Hin Hnone]. destruct (Hall s Hin) as [[c Hc] _]. congruence. }
    exists name, (mkLoader Loaded (Some m) ∅). split_and!; try done.
    + intros s0 Hs0 Honly. by apply Honly.
    + by rewrite <- (ResolveAll_loaded ld m Hph Hh).
    + intros fs path m' Hfs Hcomplete. unfold Unload, Load. cbn [snd phase unloaded_loader].
      rewrite Hfs. cbn [snd].
      destruct (ResolveAll_cases (mkLoader Loaded (Some m') ∅) m' eq_refl eq_refl)
        as [(name' & Hmiss' & _)|(tbl & _ & Hres')].
      * by destruct (Hcomplete name').
      * by eexists.
  - intros Hnone.
    destruct (ResolveAll_cases ld m Hph Hh) as [(name & Hmiss & _)|(tbl & Hall & Hres)].
    { by destruct (Hnone name). }
    eexists. split; [exact Hres|]. split; [done|].
    intros s Hs. cbn [table]. destruct (Hall s Hs) as [Hsome Heq].
    split; [by rewrite Heq | done].
Qed.

Lemma ResolveAll_all_or_nothing_witness :
  exists name ld',
    ResolveAll loaded_incomplete = Some (Failed (SymbolNotFound name), ld') /\
    missing module_without_detect_frame name /\
    unusable ld'.
Proof.
  assert (Hmiss : missing module_without_detect_frame "detect-frame").
  { split; [|reflexivity]. unfold required_symbols. repeat constructor. }
  destruct (proj1 (ResolveAll_all_or_nothing loaded_incomplete module_without_detect_frame
                     eq_refl eq_refl) (ex_intro _ "detect-frame" Hmiss))
    as (name & ld' & Hres & Hname & _ & Hun & _).
  exists name, ld'. split_and!; [exact Hres | exact Hname | exact Hun].
Defined.

Example resolve_incomplete_module :
  fst <$> ResolveAll (snd (Load demo_fs "./incomplete.dll" unloaded_loader))
    = Some (Failed (SymbolNotFound "detect-frame")).
Proof. vm_compute. reflexivity. Qed.

Example resolve_complete_module :
  fst <$> ResolveAll (snd (Load demo_fs "./Mediapipe_Hand_Tracking.dll" unloaded_loader))
    = Some Ok.
Proof. vm_compute. reflexivity. Qed.

Lemma Invoke_refused (op : Operation) (ld : Loader) :
  before_initialized ld -> Invoke op ld = Some (Failed NotInitialized, ld).
Proof.
  unfold before_initialized, Invoke. by intros [->|[->| ->]].
Qed.

(** A call that is not a successful initialization keeps the loader
    before Initialized; a detection or release call made there is
    answered with [NotInitialized]. *)
Lemma exec_before_initialized fs (c : Command) (ld ld' : Loader) (r : Reply) :
  before_initialized ld ->
  exec fs c ld = Some (r, ld') ->
  r <> RBool true ->
  before_initialized ld' /\
  (forall op, c = CInvoke op -> r = RStatus (Failed NotInitialized)).
Proof.
  unfold before_initialized. intros Hb Hexec Hr.
  destruct c as [path| |configPath flags|op|]; cbn [exec] in Hexec.
  - split; [|discriminate]. unfold Load in Hexec.
    destruct (phase ld) eqn:Hph; try (injection Hexec as <- <-; rewrite Hph; tauto).
    destruct (fs path); injection Hexec as <- <-; cbn; [|rewrite Hph]; tauto.
  - split; [|discriminate].
    destruct (ResolveAll ld) as [[s ld1]|] eqn:HR; [|discriminate].
    cbn in Hexec. injection Hexec as <- <-. unfold ResolveAll in HR.
    destruct (phase ld), (handle ld) as [m|]; try discriminate.
    destruct (resolve _ _ _); injection HR as <- <-; cbn; tauto.
  - split; [|discriminate].
    destruct (Init configPath flags ld) as [[b ld1]|] eqn:HI; [|discriminate].
    cbn in Hexec. injection Hexec as <- <-. unfold Init in HI.
    destruct (phase ld) eqn:Hph, (handle ld) as [m|], (table ld !! "init");
      try discriminate.
    destruct (fst (module_init m (internal m) configPath flags));
      injection HI as <- <-; [done | cbn; tauto].
  - rewrite (Invoke_refused op ld Hb) in Hexec. cbn in Hexec.
    injection Hexec as <- <-. split; [done|]. done.
  - split; [|discriminate]. injection Hexec as <- <-. cbn. tauto.
Qed.

Lemma exec_all_before_initialized fs (cs : list Command) :
  forall (ld ld' : Loader) (replies : list Reply),
  before_initialized ld ->
  exec_all fs cs ld = Some (replies, ld') ->
  RBool true ∉ replies ->
  before_initialized ld' /\
  (forall (i : nat) op, cs !! i = Some (CInvoke op) ->
     replies !! i = Some (RStatus (Failed NotInitialized))).
Proof.
  induction cs as [|c cs IH]; intros ld ld' replies Hb Hexec Hno.
  - injection Hexec as <- <-. split; [done|]. intros i op Hi. by destruct i.
  - cbn [exec_all] in Hexec.
    destruct (exec fs c ld) as [[r ld1]|] eqn:Hc; [|discriminate]. cbn in Hexec.
    destruct (exec_all fs cs ld1) as [[rs ld2]|] eqn:Hcs; [|discriminate]. cbn in Hexec.
    injection Hexec as <- <-.
    apply not_elem_of_cons in Hno as [Hr Hno].
    destruct (exec_before_initialized fs c ld ld1 r Hb Hc ltac:(congruence)) as [Hb1 Hinv].
    destruct (IH ld1 ld2 rs Hb1 Hcs Hno) as [Hb2 Hrest].
    split; [done|]. intros [|i] op Hi; cbn in *.
    + injection Hi as ->. f_equal. by eapply Hinv.
    + by eapply Hrest.
Qed.

(** C4: from a loader that has not reached Initialized, after any calls
    among which no initialization succeeded (failed ones included), the
    loader still has not reached Initialized, every detection or release
    call made on the way was answered [NotInitialized], and every
    detection or release call made now fails with [NotInitialized]: none
    succeeds. *)
Theorem detection_before_initialized_fails fs (cs : list Command)
    (ld ld' : Loader) (replies : list Reply) :
  before_initialized ld ->
  exec_all fs cs ld = Some (replies, ld') ->
  RBool true ∉ replies ->
  before_initialized ld' /\
  (forall (i : nat) op, cs !! i = Some (CInvoke op) ->
     replies !! i = Some (RStatus (Failed NotInitialized))) /\
  (forall op, Invoke op ld' = Some (Failed NotInitialized, ld')) /\
  (forall op ld'', Invoke op ld' <> Some (Ok, ld'')).
Proof.
  intros Hb Hexec Hno.
  destruct (exec_all_before_initialized fs cs ld ld' replies Hb Hexec Hno) as [Hb' Hcalls].
  split_and!; [done | done | |].
  - intros op. by apply Invoke_refused.
  - intros op ld''. by rewrite Invoke_refused.
Qed.

Lemma detection_before_initialized_fails_witness :
  exists replies ld',
    exec_all demo_fs calls_after_failed_init unloaded_loader = Some (replies, ld') /\
    replies !! 3%nat = Some (RStatus (Failed NotInitialized)) /\
    replies !! 4%nat = Some (RStatus (Failed NotInitialized)) /\
    forall op, Invoke op ld' = Some (Failed NotInitialized, ld').
Proof.
  destruct (exec_all demo_fs calls_after_failed_init unloaded_loader)
    as [[replies ld']|] eqn:Hexec; [|vm_compute in Hexec; discriminate Hexec].
  assert (Hno : RBool true ∉ replies).
  { vm_compute in Hexec. injection Hexec as <- _.
    intros Hin. repeat (apply elem_of_cons in Hin as [Hin|Hin]; [discriminate Hin|]).
    by apply elem_of_nil in Hin. }
  destruct (detection_before_initialized_fails demo_fs calls_after_failed_init
              unloaded_loader ld' replies (or_introl eq_refl) Hexec Hno)
    as (_ & Hcalls & Hnow & _).
  exists replies, ld'. split_and!; [reflexivity | | | exact Hnow].
  - exact (Hcalls 3%nat _ eq_refl).
  - exact (Hcalls 4%nat _ eq_refl).
Defined.

Example replies_after_failed_init :
  fst <$> exec_all demo_fs calls_after_failed_init unloaded_loader
    = Some [RStatus Ok; RStatus Ok; RBool false;
            RStatus (Failed NotInitialized); RStatus (Failed NotInitialized)].
Proof. vm_compute. reflexivity. Qed.

(** ** A full cycle and the internal state of the module *)








(** Without the release the module keeps the internal state init gave it,
    and the second cycle differs from the first: its init is refused. *)
Example cycle_without_release_differs :
  exists p1 p2,
    cycle_without_release "./Mediapipe_Hand_Tracking.dll" "cfg" [] demo_process
      = Some ([RStatus Ok; RStatus Ok; RBool true; RStatus Ok], p1) /\
    cycle_without_release "./Mediapipe_Hand_Tracking.dll" "cfg" [] p1
      = Some ([RStatus Ok; RStatus Ok; RBool false; RStatus Ok], p2).
Proof.
  eexists _, _. split; vm_compute; reflexivity.
Qed.

(** With the module refusing init the cycle is defined and reports it:
    the release is answered [NotInitialized]. *)
Example cycle_on_refusing_module :
  fst <$> full_cycle "./refusing.dll" "cfg" [] demo_process
    = Some [RStatus Ok; RStatus Ok; RBool false;
            RStatus (Failed NotInitialized); RStatus Ok].
Proof. vm_compute. reflexivity. Qed.

(* ===================================================================== *)
(** * Further properties of main.cpp                                      *)
(* ===================================================================== *)

(** ** The callback and the buffer content *)

Lemma cv_Point_representable (info : PoseInfo) :
  representable info = true ->
  exists qx qy,
    x info = Finite qx /\ y info = Finite qy /\
    INT_MIN <= truncate qx <= INT_MAX /\ INT_MIN <= truncate qy <= INT_MAX /\
    cv_Point info = mkPoint (truncate qx) (truncate qy).
Proof.
  unfold representable, cv_Point. intros [Hx Hy]%andb_true_iff.
  destruct (x info) as [qx| |]; try discriminate Hx.
  destruct (y info) as [qy| |]; try discriminate Hy.
  exists qx, qy. rewrite !converts_float_to_int by done.
  cbn [converts] in Hx, Hy.
  apply andb_true_iff in Hx as [Hx1 Hx2]. apply andb_true_iff in Hy as [Hy1 Hy2].
  split_and!; try done; lia.
Qed.

(** X1: one call of the landmarks callback on the 42-slot buffer, for any
    count and landmarks whose coordinates convert to [int]:
    [gValidKpCount] becomes min(count, 42) (a negative count is kept as it
    is), every slot below that bound holds the two coordinates of its
    landmark cut toward zero, and the slots from the bound on keep what
    they held. *)
Theorem LandmarksCallBackImpl_content (image_index : Z) (infos : Z -> PoseInfo)
    (count : Z) (g : Globals) :
  length (handKPs g) = 42%nat ->
  landmarks_representable infos = true ->
  exists g',
    LandmarksCallBackImpl image_index infos count g = Some (tt, g') /\
    gValidKpCount g' = Z.min count 42 /\
    length (handKPs g') = 42%nat /\
    (forall j, 0 <= j < Z.min count 42 ->
       exists qx qy,
         x (infos j) = Finite qx /\ y (infos j) = Finite qy /\
         handKPs g' !! Z.to_nat j = Some (mkPoint (truncate qx) (truncate qy))) /\
    (forall j : nat, Z.min count 42 <= Z.of_nat j -> handKPs g' !! j = handKPs g !! j).
Proof.
  intros Hlen Hrep.
  destruct (LandmarksCallBackImpl_spec image_index infos count g Hlen)
    as (g' & Hrun & Hl & Hc & _ & Hnew & Hold).
  exists g'. split_and!; try done.
  intros j Hj.
  destruct (cv_Point_representable (infos j)
              (landmarks_representable_slot infos j Hrep ltac:(lia)))
    as (qx & qy & Hx & Hy & _ & _ & Hpt).
  exists qx, qy. split_and!; [done | done |]. rewrite <- Hpt. by apply Hnew.
Qed.

Lemma LandmarksCallBackImpl_content_witness :
  exists g',
    LandmarksCallBackImpl 3 (fun i => mkPoseInfo (7 # 2) (-7 # 2)) 2 initial_globals
      = Some (tt, g') /\
    gValidKpCount g' = 2 /\
    handKPs g' !! 1%nat = Some (mkPoint 3 (-3)) /\
    handKPs g' !! 2%nat = handKPs initial_globals !! 2%nat.
Proof.
  destruct (LandmarksCallBackImpl_content 3 (fun i => mkPoseInfo (7 # 2) (-7 # 2)) 2
              initial_globals eq_refl ltac:(vm_compute; reflexivity))
    as (g' & Hrun & Hc & _ & Hnew & Hold).
  exists g'. split_and!; [exact Hrun | exact Hc | | exact (Hold 2%nat ltac:(cbn; lia))].
  destruct (Hnew 1 ltac:(cbn; lia)) as (qx & qy & Hx & Hy & Hslot).
  cbn in Hx, Hy. injection Hx as <-. injection Hy as <-. exact Hslot.
Defined.

(** X2: two calls in a row, with landmarks whose coordinates convert to
    [int]: the count and the slots below the second bound come from the
    second call, and the slots between the second bound and the first
    still hold the landmarks of the first call.  After a two-hand batch
    and a one-hand batch the slots 21..41 keep the old left hand. *)
Theorem LandmarksCallBackImpl_keeps_older_slots (i1 i2 : Z)
    (infos1 infos2 : Z -> PoseInfo) (count1 count2 : Z) (g : Globals) :
  length (handKPs g) = 42%nat ->
  landmarks_representable infos1 = true ->
  landmarks_representable infos2 = true ->
  exists g',
    (run LandmarksCallBackImpl i1 infos1 count1;
     LandmarksCallBackImpl i2 infos2 count2) g = Some (tt, g') /\
    gValidKpCount g' = Z.min count2 42 /\
    (forall j, 0 <= j < Z.min count2 42 ->
       handKPs g' !! Z.to_nat j = Some (cv_Point (infos2 j))) /\
    (forall j, 0 <= j -> Z.min count2 42 <= j < Z.min count1 42 ->
       handKPs g' !! Z.to_nat j = Some (cv_Point (infos1 j))).
Proof.
  intros Hlen _ _.
  destruct (LandmarksCallBackImpl_spec i1 infos1 count1 g Hlen)
    as (g1 & Hrun1 & Hl1 & _ & _ & Hnew1 & _).
  destruct (LandmarksCallBackImpl_spec i2 infos2 count2 g1 Hl1)
    as (g2 & Hrun2 & _ & Hc2 & _ & Hnew2 & Hold2).
  exists g2. rewrite (bind_some _ _ g tt g1 Hrun1). split_and!; try done.
  intros j Hj0 Hj. rewrite Hold2 by lia. apply Hnew1. lia.
Qed.

Lemma LandmarksCallBackImpl_keeps_older_slots_witness :
  exists g',
    (run LandmarksCallBackImpl 0 demo_two_hands 42;
     LandmarksCallBackImpl 1 (fun _ => mkPoseInfo (9 # 1) (9 # 1)) 21) initial_globals
      = Some (tt, g') /\
    gValidKpCount g' = 21 /\
    handKPs g' !! 20%nat = Some (mkPoint 9 9) /\
    handKPs g' !! 21%nat = Some (mkPoint 0 3).
Proof.
  destruct (LandmarksCallBackImpl_keeps_older_slots 0 1 demo_two_hands
              (fun _ => mkPoseInfo (9 # 1) (9 # 1)) 42 21 initial_globals eq_refl
              ltac:(vm_compute; reflexivity) ltac:(vm_compute; reflexivity))
    as (g' & Hrun & Hc & Hnew & Hold).
  exists g'. split_and!; [exact Hrun | exact Hc | |].
  - exact (Hnew 20 ltac:(cbn; lia)).
  - exact (Hold 21 ltac:(lia) ltac:(cbn; lia)).
Defined.

(** X3: the callback is idempotent on the buffer and the count: a second
    call with the same arguments changes neither. *)
Theorem LandmarksCallBackImpl_idempotent (image_index : Z) (infos : Z -> PoseInfo)
    (count : Z) (g : Globals) :
  length (handKPs g) = 42%nat ->
  exists g1 g2,
    LandmarksCallBackImpl image_index infos count g = Some (tt, g1) /\
    LandmarksCallBackImpl image_index infos count g1 = Some (tt, g2) /\
    handKPs g2 = handKPs g1 /\
    gValidKpCount g2 = gValidKpCount g1.
Proof.
  intros Hlen.
  destruct (LandmarksCallBackImpl_spec image_index infos count g Hlen)
    as (g1 & Hrun1 & Hl1 & Hc1 & _ & Hnew1 & _).
  destruct (LandmarksCallBackImpl_spec image_index infos count g1 Hl1)
    as (g2 & Hrun2 & _ & Hc2 & _ & Hnew2 & Hold2).
  exists g1, g2. split_and!; [done | done | | lia].
  apply list_eq. intros j.
  destruct (decide (Z.of_nat j < Z.min count 42)) as [Hj|Hj].
  - pose proof (Hnew1 (Z.of_nat j) ltac:(lia)) as H1.
    pose proof (Hnew2 (Z.of_nat j) ltac:(lia)) as H2.
    rewrite Nat2Z.id in H1, H2. by rewrite H1, H2.
  - apply Hold2. lia.
Qed.

Lemma LandmarksCallBackImpl_idempotent_witness :
  exists g1 g2,
    LandmarksCallBackImpl 0 demo_two_hands 42 initial_globals = Some (tt, g1) /\
    LandmarksCallBackImpl 0 demo_two_hands 42 g1 = Some (tt, g2) /\
    handKPs g2 = handKPs g1 /\
    gValidKpCount g2 = gValidKpCount g1.
Proof.
  exact (LandmarksCallBackImpl_idempotent 0 demo_two_hands 42
           initial_globals eq_refl).
Defined.

(** ** The picture drawn *)

Lemma load_kp_point (pts : Z -> Point) i g :
  0 <= i -> handKPs g !! Z.to_nat i = Some (pts i) ->
  load_kp i g = Some (pts i, with_accesses g [KpRead i]).
Proof. intros Hi Hp. by rewrite (load_kp_some i (pts i) g Hi Hp). Qed.

(** The circle loop from slot [i] on, for [n] more slots that hold the
    points [pts]. *)
Lemma circle_loop_picture (pts : Z -> Point) (n : nat) :
  forall (i : Z) (img : Mat) (g : Globals),
  0 <= i ->
  (forall j, i <= j < i + Z.of_nat n -> handKPs g !! Z.to_nat j = Some (pts j)) ->
  for_from n i (fun i img =>
      do p <- load_kp i; ret (img ++ [Circle p 6 (0, 0, 255) (-1)])) img g
    = Some (img ++ map (fun i => Circle (pts i) 6 (0, 0, 255) (-1)) (seqZ i (Z.of_nat n)),
            with_accesses g (map KpRead (seqZ i (Z.of_nat n)))).
Proof.
  induction n as [|n IH]; intros i img g Hi Hpts.
  - cbn [for_from]. rewrite seqZ_nil by lia. cbn [map].
    by rewrite with_accesses_nil, app_nil_r.
  - cbn [for_from].
    rewrite (bind_some _ _ g (img ++ [Circle (pts i) 6 (0, 0, 255) (-1)])
               (with_accesses g [KpRead i])).
    2:{ by rewrite (bind_some _ _ g _ _ (load_kp_point pts i g Hi (Hpts i ltac:(lia)))). }
    rewrite IH; [|lia|intros j Hj; cbn [with_accesses handKPs]; apply Hpts; lia].
    rewrite with_accesses_app, <- app_assoc.
    rewrite (seqZ_cons i (Z.of_nat (S n))) by lia. cbn [map app].
    replace (Z.succ i) with (i + 1) by lia.
    replace (Z.pred (Z.of_nat (S n))) with (Z.of_nat n) by lia.
    done.
Qed.

(** The lines of one hand whose two ends are slots that hold [pts]. *)
Lemma draw_segments_picture (pts : Z -> Point) (offset : Z) (segs : list (Z * Z)) :
  forall (img : Mat) (g : Globals),
  Forall (fun seg =>
            (0 <= offset + fst seg /\
             handKPs g !! Z.to_nat (offset + fst seg) = Some (pts (offset + fst seg))) /\
            (0 <= offset + snd seg /\
             handKPs g !! Z.to_nat (offset + snd seg) = Some (pts (offset + snd seg))))
         segs ->
  draw_segments offset segs img g
    = Some (img ++ map (fun seg => Line (pts (offset + fst seg)) (pts (offset + snd seg))
                                        (0, 255, 0) 2) segs,
            with_accesses g
              (flat_map (fun seg => [KpRead (offset + fst seg);
                                     KpRead (offset + snd seg)]) segs)).
Proof.
  induction segs as [|seg segs IH]; intros img g Hall.
  - cbn. by rewrite with_accesses_nil, app_nil_r.
  - apply Forall_cons in Hall as [[[H1 Hp1] [H2 Hp2]] Hall].
    cbn [draw_segments]. unfold draw_segment.
    rewrite (bind_some _ _ g
               (img ++ [Line (pts (offset + fst seg)) (pts (offset + snd seg)) (0, 255, 0) 2])
               (with_accesses g [KpRead (offset + fst seg); KpRead (offset + snd seg)])).
    2:{ rewrite (bind_some _ _ g _ _ (load_kp_point pts _ g H1 Hp1)).
        rewrite (bind_some _ _ _ _ _
                   (load_kp_point pts _ (with_accesses g [KpRead (offset + fst seg)]) H2 Hp2)).
        by rewrite with_accesses_app. }
    rewrite IH by done.
    rewrite with_accesses_app, <- app_assoc. done.
Qed.

(** The loop over the hands, entered with [offset = 21 * c], for [n] more
    hands whose slots hold [pts]. *)
Lemma hand_loop_picture (pts : Z -> Point) (n : nat) :
  forall (i c : Z) (img : Mat) (g : Globals),
  0 <= c ->
  (forall j, 0 <= j < 21 * (c + Z.of_nat n) -> handKPs g !! Z.to_nat j = Some (pts j)) ->
  for_from n i (fun _ (st : Z * Mat) =>
      do img' <- draw_segments (fst st) hand_segments (snd st);
      ret (fst st + 21, img')) (21 * c, img) g
    = Some ((21 * (c + Z.of_nat n),
             img ++ flat_map (hand_lines pts) (map (fun k => 21 * k) (seqZ c (Z.of_nat n)))),
            with_accesses g
              (flat_map segment_reads (map (fun k => 21 * k) (seqZ c (Z.of_nat n))))).
Proof.
  induction n as [|n IH]; intros i c img g Hc Hpts.
  - cbn [for_from Z.of_nat]. rewrite seqZ_nil by lia. cbn [map flat_map].
    by rewrite with_accesses_nil, Z.add_0_r, app_nil_r.
  - cbn [for_from fst snd].
    rewrite (bind_some _ _ g (21 * (c + 1), img ++ hand_lines pts (21 * c))
               (with_accesses g (segment_reads (21 * c)))).
    2:{ assert (Hsegs : Forall (fun seg =>
            (0 <= 21 * c + fst seg /\
             handKPs g !! Z.to_nat (21 * c + fst seg) = Some (pts (21 * c + fst seg))) /\
            (0 <= 21 * c + snd seg /\
             handKPs g !! Z.to_nat (21 * c + snd seg) = Some (pts (21 * c + snd seg))))
          hand_segments).
        { eapply Forall_impl; [apply hand_segments_joints|]. cbn.
          intros seg Hseg. split; (split; [lia | apply Hpts; lia]). }
        rewrite (bind_some _ _ g _ _
                   (draw_segments_picture pts (21 * c) hand_segments img g Hsegs)).
        unfold ret, hand_lines, segment_reads. do 3 f_equal. lia. }
    rewrite IH; [|lia|intros j Hj; cbn [with_accesses handKPs]; apply Hpts; lia].
    rewrite with_accesses_app, <- app_assoc.
    rewrite (seqZ_cons c (Z.of_nat (S n))) by lia. cbn [map flat_map].
    replace (Z.succ c) with (c + 1) by lia.
    replace (Z.pred (Z.of_nat (S n))) with (Z.of_nat n) by lia.
    replace (c + 1 + Z.of_nat n) with (c + Z.of_nat (S n)) by lia.
    done.
Qed.

Lemma seqZ_to_nat (m n : Z) : seqZ m (Z.of_nat (Z.to_nat n)) = seqZ m n.
Proof. unfold seqZ. by rewrite Nat2Z.id. Qed.

(** What [DrawHandKeyponts] draws when the slots below [gValidKpCount]
    hold the points [pts]; for a count of zero or less this is nothing. *)
Lemma DrawHandKeyponts_picture (pts : Z -> Point) (srcImage : Mat) (g : Globals) :
  (forall j, 0 <= j < gValidKpCount g -> handKPs g !! Z.to_nat j = Some (pts j)) ->
  DrawHandKeyponts srcImage g
    = Some (srcImage ++ hand_picture pts (gValidKpCount g),
            with_accesses g (circle_reads (gValidKpCount g) ++ line_reads (gValidKpCount g))).
Proof.
  intros Hpts. set (n := gValidKpCount g) in *.
  assert (Hq : 21 * Z.of_nat (Z.to_nat (Z.quot n 21)) <= Z.max n 0).
  { destruct (decide (0 <= n)) as [Hn|Hn].
    - rewrite Z.quot_div_nonneg by lia.
      pose proof (Z.mul_div_le n 21 ltac:(lia)).
      pose proof (Z.div_pos n 21 ltac:(lia) ltac:(lia)). lia.
    - pose proof (Z.quot_opp_l n 21 ltac:(lia)) as Ho.
      pose proof (Z.quot_pos (- n) 21 ltac:(lia) ltac:(lia)). lia. }
  unfold DrawHandKeyponts.
  rewrite (bind_some _ _ g _ _ (get_count_some g)). fold n. unfold for_upto.
  rewrite (bind_some _ _ g _ _
             (circle_loop_picture pts (Z.to_nat n) 0 srcImage g ltac:(lia)
                ltac:(intros j Hj; apply Hpts; lia))).
  rewrite (bind_some _ _ _ _ _ (get_count_some _)).
  cbn [with_accesses gValidKpCount]. fold n.
  pose proof (hand_loop_picture pts (Z.to_nat (Z.quot n 21)) 0 0
                (srcImage ++ map (fun i => Circle (pts i) 6 (0, 0, 255) (-1))
                                 (seqZ 0 (Z.of_nat (Z.to_nat n))))
                (with_accesses g (map KpRead (seqZ 0 (Z.of_nat (Z.to_nat n)))))
                ltac:(lia)) as Hh.
  change (21 * 0) with 0 in Hh.
  assert (Hslots : forall j, 0 <= j < 21 * (0 + Z.of_nat (Z.to_nat (Z.quot n 21))) ->
            handKPs (with_accesses g (map KpRead (seqZ 0 (Z.of_nat (Z.to_nat n)))))
              !! Z.to_nat j = Some (pts j)).
  { intros j Hj. cbn [with_accesses handKPs]. apply Hpts. lia. }
  rewrite (bind_some _ _ _ _ _ (Hh Hslots)).
  unfold ret. cbn [snd]. rewrite with_accesses_app, <- app_assoc.
  unfold hand_picture, circle_reads, line_reads, hand_offsets.
  rewrite !seqZ_to_nat. done.
Qed.

Lemma buffer_point_lookup (g : Globals) (j : Z) :
  0 <= j < Z.of_nat (length (handKPs g)) ->
  handKPs g !! Z.to_nat j = Some (buffer_point g j).
Proof.
  intros Hj. unfold buffer_point.
  destruct (lookup_lt_is_Some_2 (handKPs g) (Z.to_nat j) ltac:(lia)) as [p Hp].
  by rewrite Hp.
Qed.

Lemma hand_lines_length (pts : Z -> Point) (offsets : list Z) :
  length (flat_map (hand_lines pts) offsets) = (21 * length offsets)%nat.
Proof.
  induction offsets as [|o offsets IH]; [done|].
  cbn [flat_map]. rewrite length_app, IH. unfold hand_lines at 1.
  rewrite length_map. cbn [length hand_segments]. lia.
Qed.

(** X4: when [gValidKpCount] does not exceed the size of the buffer,
    [DrawHandKeyponts] only adds to the image: a filled red circle of
    radius 6 on each of the first [gValidKpCount] key points, in order,
    then 21 green lines of thickness 2 for each complete group of 21 key
    points; key points beyond the last complete group get a circle and no
    line.  The buffer and the count are left as they were. *)
Theorem DrawHandKeyponts_draws (srcImage : Mat) (g : Globals) :
  gValidKpCount g <= Z.of_nat (length (handKPs g)) ->
  let n := gValidKpCount g in
  exists g',
    DrawHandKeyponts srcImage g
      = Some (srcImage ++ hand_picture (buffer_point g) n, g') /\
    handKPs g' = handKPs g /\ gValidKpCount g' = n /\
    length (hand_picture (buffer_point g) n)
      = (Z.to_nat n + 21 * Z.to_nat (Z.quot n 21))%nat.
Proof.
  intros Hn n. eexists. split_and!.
  - apply DrawHandKeyponts_picture. intros j Hj. apply buffer_point_lookup. lia.
  - done.
  - done.
  - unfold hand_picture. rewrite length_app, length_map, length_seqZ, hand_lines_length.
    unfold hand_offsets. by rewrite length_map, length_seqZ.
Qed.

Lemma DrawHandKeyponts_draws_witness :
  exists g',
    DrawHandKeyponts [] (mkGlobals (replicate 42 (mkPoint 1 2)) 30 [])
      = Some ([] ++ hand_picture
                      (buffer_point (mkGlobals (replicate 42 (mkPoint 1 2)) 30 [])) 30, g') /\
    length (hand_picture (buffer_point (mkGlobals (replicate 42 (mkPoint 1 2)) 30 [])) 30)
      = 51%nat.
Proof.
  destruct (DrawHandKeyponts_draws [] (mkGlobals (replicate 42 (mkPoint 1 2)) 30 [])
              ltac:(cbn; lia)) as (g' & Hrun & _ & _ & Hlen).
  exists g'. split; [exact Hrun | exact Hlen].
Defined.

(** X5: with a [gValidKpCount] of zero or less [DrawHandKeyponts] does
    nothing: the image and the globals are unchanged and the buffer is not
    read, whatever its size. *)
Theorem DrawHandKeyponts_nothing_to_draw (srcImage : Mat) (g : Globals) :
  gValidKpCount g <= 0 ->
  DrawHandKeyponts srcImage g = Some (srcImage, g).
Proof.
  intros Hn.
  rewrite (DrawHandKeyponts_picture (buffer_point g)) by (intros j Hj; lia).
  assert (Hq : Z.quot (gValidKpCount g) 21 <= 0).
  { pose proof (Z.quot_opp_l (gValidKpCount g) 21 ltac:(lia)).
    pose proof (Z.quot_pos (- gValidKpCount g) 21 ltac:(lia) ltac:(lia)). lia. }
  unfold hand_picture, circle_reads, line_reads, hand_offsets.
  rewrite !seqZ_nil by lia. cbn [map flat_map app].
  by rewrite with_accesses_nil, app_nil_r.
Qed.

Lemma DrawHandKeyponts_nothing_to_draw_witness :
  DrawHandKeyponts [Circle (mkPoint 5 5) 6 (0, 0, 255) (-1)]
                   (mkGlobals [] (-30) [])
    = Some ([Circle (mkPoint 5 5) 6 (0, 0, 255) (-1)], mkGlobals [] (-30) []).
Proof.
  apply (DrawHandKeyponts_nothing_to_draw _ (mkGlobals [] (-30) [])). cbn. lia.
Defined.

(** The circle loop fails as soon as it is asked for a slot past the end
    of the buffer. *)
Lemma circle_loop_past_end (n : nat) : forall (i : Z) (img : Mat) (g : Globals),
  0 <= i -> (0 < n)%nat -> Z.of_nat (length (handKPs g)) < i + Z.of_nat n ->
  for_from n i (fun i img =>
      do p <- load_kp i; ret (img ++ [Circle p 6 (0, 0, 255) (-1)])) img g = None.
Proof.
  induction n as [|n IH]; intros i img g Hi Hn Hpast; [lia|].
  cbn [for_from]. unfold bind at 1.
  destruct (decide (i < Z.of_nat (length (handKPs g)))) as [Hin|Hout].
  - destruct (load_kp_in_bounds i g ltac:(lia)) as (p & _ & Hload).
    rewrite (bind_some _ _ g p _ Hload). cbn [ret].
    apply IH; [lia | lia | cbn [with_accesses handKPs]; lia].
  - unfold bind, load_kp. rewrite decide_True by lia.
    by rewrite (lookup_ge_None_2 (handKPs g) (Z.to_nat i)) by lia.
Qed.

(** X6: [DrawHandKeyponts] is undefined when [gValidKpCount] exceeds the
    size of the buffer: its circle loop reads [handKPs[i]] up to the count
    and runs past the end.  This is what the clamp to 42 in the callback
    prevents. *)
Theorem DrawHandKeyponts_needs_clamped_count (srcImage : Mat) (g : Globals) :
  Z.of_nat (length (handKPs g)) < gValidKpCount g ->
  DrawHandKeyponts srcImage g = None.
Proof.
  intros Hn. unfold DrawHandKeyponts.
  rewrite (bind_some _ _ g _ _ (get_count_some g)). unfold for_upto.
  unfold bind at 1.
  rewrite circle_loop_past_end; [done | lia | lia | lia].
Qed.

Lemma DrawHandKeyponts_needs_clamped_count_witness :
  DrawHandKeyponts [] (mkGlobals (replicate 42 (mkPoint 0 0)) 43 []) = None.
Proof.
  apply (DrawHandKeyponts_needs_clamped_count [] (mkGlobals (replicate 42 (mkPoint 0 0)) 43 [])).
  cbn. lia.
Defined.

Lemma hand_picture_nonpos (pts : Z -> Point) (n : Z) :
  n <= 0 -> hand_picture pts n = [].
Proof.
  intros Hn.
  assert (Hq : Z.quot n 21 <= 0).
  { pose proof (Z.quot_opp_l n 21 ltac:(lia)).
    pose proof (Z.quot_pos (- n) 21 ltac:(lia) ltac:(lia)). lia. }
  unfold hand_picture, hand_offsets. by rewrite !seqZ_nil by lia.
Qed.

(** X7: the callback followed by [DrawHandKeyponts], on the 42-slot
    buffer, for any count and landmarks whose coordinates convert to
    [int]: the pair runs to its end, and what is drawn is the picture of
    the landmarks just delivered, the first 42 at most; older content of
    the buffer is never drawn. *)
Theorem callback_then_draw (image_index : Z) (infos : Z -> PoseInfo) (count : Z)
    (srcImage : Mat) (g : Globals) :
  length (handKPs g) = 42%nat ->
  landmarks_representable infos = true ->
  exists g',
    (run LandmarksCallBackImpl image_index infos count;
     DrawHandKeyponts srcImage) g
      = Some (srcImage ++ hand_picture (fun i => cv_Point (infos i)) (Z.min count 42), g') /\
    length (handKPs g') = 42%nat /\
    gValidKpCount g' = Z.min count 42.
Proof.
  intros Hlen _.
  destruct (LandmarksCallBackImpl_spec image_index infos count g Hlen)
    as (g1 & Hrun & Hl & Hc & _ & Hnew & _).
  rewrite (bind_some _ _ g tt g1 Hrun).
  rewrite (DrawHandKeyponts_picture (fun i => cv_Point (infos i)) srcImage g1)
    by (intros j Hj; apply Hnew; lia).
  rewrite Hc. eexists. split; [reflexivity|]. done.
Qed.

Lemma callback_then_draw_witness :
  exists g',
    (run LandmarksCallBackImpl 0 (fun i => mkPoseInfo (i # 1) (1 # 3)) 100;
     DrawHandKeyponts []) initial_globals
      = Some ([] ++ hand_picture (fun i => cv_Point (mkPoseInfo (i # 1) (1 # 3)))
                                 (Z.min 100 42), g') /\
    length (handKPs g') = 42%nat /\
    gValidKpCount g' = Z.min 100 42.
Proof.
  exact (callback_then_draw 0 (fun i => mkPoseInfo (i # 1) (1 # 3)) 100 []
           initial_globals eq_refl ltac:(vm_compute; reflexivity)).
Defined.

(** ** The capture loop, whatever the module does *)

Lemma callback_intact (image_index : Z) (infos : Z -> PoseInfo) (count : Z) (g : Globals) :
  buffer_intact g ->
  exists g',
    LandmarksCallBackImpl image_index infos count g = Some (tt, g') /\
    buffer_intact g' /\
    gValidKpCount g' = Z.min count 42 /\
    (forall j, 0 <= j < Z.min count 42 ->
       handKPs g' !! Z.to_nat j = Some (cv_Point (infos j))).
Proof.
  intros [Hlen Hacc].
  destruct (LandmarksCallBackImpl_spec image_index infos count g Hlen)
    as (g' & Hrun & Hl & Hc & Hlog & Hnew & _).
  exists g'. split_and!; try done. split; [done|].
  rewrite Hlog. apply Forall_app. split; [done|].
  apply Forall_forall. intros a Ha.
  apply list_elem_of_fmap in Ha as (i & -> & Hi). apply elem_of_seqZ in Hi.
  unfold in_buffer. cbn. lia.
Qed.

(** After the callbacks of one detect call, the count and the slots below
    it are those of the last callback. *)
Lemma run_callbacks_last (calls : list Invocation) : forall g : Globals,
  buffer_intact g ->
  exists g',
    run_callbacks calls g = Some (tt, g') /\
    buffer_intact g' /\
    match last calls with
    | Some c =>
        gValidKpCount g' = Z.min (inv_count c) 42 /\
        forall j, 0 <= j < Z.min (inv_count c) 42 ->
          handKPs g' !! Z.to_nat j = Some (cv_Point (inv_infos c j))
    | None => g' = g
    end.
Proof.
  induction calls as [|c calls IH]; intros g Hg.
  - exists g. done.
  - cbn [run_callbacks].
    destruct (callback_intact (inv_image_index c) (inv_infos c) (inv_count c) g Hg)
      as (g1 & Hrun & Hg1 & Hc1 & Hnew1).
    rewrite (bind_some _ _ g tt g1 Hrun).
    destruct (IH g1 Hg1) as (g' & Hrest & Hg' & Hlast).
    exists g'. split_and!; [done | done |].
    destruct calls as [|c' calls']; [by cbn in *; subst g'|].
    change (last (c :: c' :: calls')) with (last (c' :: calls')).
    destruct (last (c' :: calls')) eqn:Elast; [exact Hlast|].
    apply last_None in Elast. discriminate Elast.
Qed.

(** One pass of the loop body up to [imshow]: the count is reset, the
    module makes its callbacks and the frame is drawn. *)
Lemma pass_frame (ev : FrameEvent) (g : Globals) :
  buffer_intact g ->
  exists g1 g2,
    Detect_Frame ev (mkGlobals (handKPs g) 0 (kp_accesses g)) = Some (detect_ok ev, g1) /\
    draw_if_detected (detect_ok ev) g1 = Some (expected_frame ev, g2) /\
    buffer_intact g2.
Proof.
  intros [Hlen Hacc]. unfold Detect_Frame, expected_frame.
  destruct (run_callbacks_last (landmark_calls ev) (mkGlobals (handKPs g) 0 (kp_accesses g)))
    as (g1 & Hrun & Hg1 & Hlast); [done|].
  exists g1. rewrite (bind_some _ _ _ tt g1 Hrun). unfold ret.
  unfold draw_if_detected.
  destruct (detect_ok ev).
  2:{ exists g1. by destruct (last (landmark_calls ev)). }
  rewrite (bind_some _ _ g1 _ _ (get_count_some g1)).
  destruct (last (landmark_calls ev)) as [c|].
  - destruct Hlast as [Hc Hslots].
    destruct (decide (gValidKpCount g1 > 0)) as [Hpos|Hnone].
    + rewrite (DrawHandKeyponts_picture (fun i => cv_Point (inv_infos c i)) [] g1)
        by (intros j Hj; apply Hslots; lia).
      rewrite Hc. eexists. split_and!; [done | done |].
      destruct Hg1 as [Hl1 Ha1]. split; [done|]. cbn [with_accesses kp_accesses].
      apply Forall_app. split; [done|].
      destruct (DrawHandKeyponts_spec [] g1 Hl1 ltac:(lia)) as (_ & _ & Hall & _).
      by rewrite Hc in Hall.
    + exists g1. rewrite hand_picture_nonpos by lia. done.
  - subst g1. cbn [gValidKpCount]. rewrite decide_False by lia.
    exists (mkGlobals (handKPs g) 0 (kp_accesses g)). done.
Qed.

(** The loop from any intact buffer: it runs to its end, and the frames it
    shows and the calls it makes are those of the first [n] events. *)
Lemma capture_loop_frames (evs : list FrameEvent) : forall (h : Harness) (g : Globals),
  buffer_intact g ->
  exists h' g' (n : nat),
    capture_loop evs h g = Some (h', g') /\
    buffer_intact g' /\
    (n <= length evs)%nat /\
    shown h' = shown h ++ map expected_frame (take n evs) /\
    map call_size (detect_log h')
      = map call_size (detect_log h) ++ map event_size (take n evs).
Proof.
  induction evs as [|ev evs IH]; intros h g Hg.
  - exists h, g, 0%nat. cbn. by rewrite !app_nil_r.
  - cbn [capture_loop].
    destruct (read_ok ev); cbn [negb];
      [|exists h, g, 0%nat; cbn; rewrite !app_nil_r; split_and!; (done || lia)].
    destruct (frame_empty ev);
      [exists h, g, 0%nat; cbn; rewrite !app_nil_r; split_and!; (done || lia)|].
    rewrite (bind_some _ _ g tt _ (set_count_some 0 g)).
    destruct (pass_frame ev g Hg) as (g1 & g2 & Hdet & Hdraw & Hg2).
    rewrite (bind_some _ _ _ _ g1 Hdet).
    rewrite (bind_some _ _ g1 _ g2 Hdraw).
    cbn [image_index detect_log shown].
    destruct (decide (key ev >= 0)) as [Hkey|Hkey].
    + eexists _, g2, 1%nat. split; [reflexivity|].
      cbn [detect_log shown length take map]. rewrite map_app.
      split_and!; [done | lia | done | done].
    + destruct (IH (mkHarness (wrap_int (image_index h + 1))
                      (detect_log h ++ [mkDetectCall (image_index h) (frame_cols ev)
                                          (frame_rows ev)])
                      (shown h ++ [expected_frame ev])) g2 Hg2)
        as (h' & g' & n & Hrun & Hg' & Hn & Hshown & Hcalls).
      exists h', g', (S n). split; [exact Hrun|].
      cbn [shown detect_log] in Hshown, Hcalls.
      split_and!; [done | cbn [length]; lia | |].
      * rewrite Hshown, <- app_assoc. done.
      * rewrite Hcalls, map_app, <- app_assoc. done.
Qed.

Lemma initial_globals_intact : buffer_intact initial_globals.
Proof. split; [reflexivity | constructor]. Qed.

(** X8: every run of the capture loop, whatever callbacks the module
    makes and with whatever counts, runs to its end without an access
    outside the 42 slots of the buffer: all reads and writes of [handKPs]
    made during the run have an index from 0 to 41. *)
Theorem capture_loop_never_leaves_buffer (evs : list FrameEvent) :
  exists h' g',
    HandTrackingDllTest_loop evs initial_globals = Some (h', g') /\
    length (handKPs g') = 42%nat /\
    Forall (fun a => 0 <= access_index a <= 41) (kp_accesses g').
Proof.
  destruct (capture_loop_frames evs (mkHarness 0 [] []) initial_globals
              initial_globals_intact) as (h' & g' & n & Hrun & [Hl Hacc] & _).
  exists h', g'. split_and!; [done | done |].
  eapply Forall_impl; [exact Hacc|]. unfold in_buffer. intros a Ha. lia.
Qed.

(** X9: when the landmarks the module delivers have coordinates that
    convert to [int], the frames the loop shows are drawn from the
    landmarks of their own detect call only: frame number k carries the
    picture of the last callback made during call number k when that call
    succeeded, and no shape at all when the call failed or made no
    callback.  Key points of an earlier frame are never drawn on a later
    one. *)
Theorem capture_loop_shows_own_landmarks (evs : list FrameEvent) :
  events_representable evs = true ->
  exists h' g' (n : nat),
    HandTrackingDllTest_loop evs initial_globals = Some (h', g') /\
    (n <= length evs)%nat /\
    shown h' = map expected_frame (take n evs).
Proof.
  intros _.
  destruct (capture_loop_frames evs (mkHarness 0 [] []) initial_globals
              initial_globals_intact) as (h' & g' & n & Hrun & _ & Hn & Hshown & _).
  by exists h', g', n.
Qed.

Lemma capture_loop_shows_own_landmarks_witness :
  exists h' g' (n : nat),
    HandTrackingDllTest_loop demo_events initial_globals = Some (h', g') /\
    (n <= length demo_events)%nat /\
    shown h' = map expected_frame (take n demo_events).
Proof.
  apply (capture_loop_shows_own_landmarks demo_events). vm_compute. reflexivity.
Defined.

(** X10: the loop makes one detect call per frame it shows, in the same
    order, and each call passes the width and height of that frame:
    call number k carries the size of event number k. *)
Theorem capture_loop_one_call_per_frame (evs : list FrameEvent) :
  exists h' g' (n : nat),
    HandTrackingDllTest_loop evs initial_globals = Some (h', g') /\
    length (detect_log h') = n /\ length (shown h') = n /\
    map call_size (detect_log h') = map event_size (take n evs).
Proof.
  destruct (capture_loop_frames evs (mkHarness 0 [] []) initial_globals
              initial_globals_intact) as (h' & g' & n & Hrun & _ & Hn & Hshown & Hcalls).
  cbn [shown detect_log map app] in Hshown, Hcalls.
  exists h', g', n. split_and!; [done | | | done].
  - rewrite <- (length_map call_size), Hcalls, length_map, length_take. lia.
  - rewrite Hshown, length_map, length_take. lia.
Qed.

(** X11: the loop is left at the first event at which the camera gives no
    frame or a key is pressed: the events after it change nothing, and no
    further frame reaches the module. *)
Theorem capture_loop_stops (before after : list FrameEvent) (ev : FrameEvent)
    (h : Harness) (g : Globals) :
  stops ev ->
  capture_loop (before ++ ev :: after) h g = capture_loop (before ++ [ev]) h g.
Proof.
  intros Hstop. revert h g.
  induction before as [|e before IH]; intros h g; cbn [app capture_loop].
  - destruct (read_ok ev) eqn:Hread; cbn [negb]; [|done].
    destruct (frame_empty ev) eqn:Hempty; [done|].
    unfold bind. destruct (set_count 0 g) as [[? g0]|]; [|done].
    destruct (Detect_Frame ev g0) as [[ok g1]|]; [|done].
    destruct (draw_if_detected ok g1) as [[frame g2]|]; [|done].
    destruct (decide (key ev >= 0)) as [Hkey|Hkey]; [done|].
    destruct Hstop as [Hs|[Hs|Hs]]; [congruence | congruence | lia].
  - destruct (read_ok e); cbn [negb]; [|done].
    destruct (frame_empty e); [done|].
    unfold bind. destruct (set_count 0 g) as [[? g0]|]; [|done].
    destruct (Detect_Frame e g0) as [[ok g1]|]; [|done].
    destruct (draw_if_detected ok g1) as [[frame g2]|]; [|done].
    destruct (decide (key e >= 0)); [done|]. apply IH.
Qed.

Lemma capture_loop_stops_witness :
  capture_loop (take 2 demo_events ++ mkFrameEvent false false 0 0 [] true (-1) :: demo_events)
               (mkHarness 0 [] []) initial_globals
  = capture_loop (take 2 demo_events ++ [mkFrameEvent false false 0 0 [] true (-1)])
                 (mkHarness 0 [] []) initial_globals.
Proof.
  apply (capture_loop_stops (take 2 demo_events) demo_events
           (mkFrameEvent false false 0 0 [] true (-1))).
  left. reflexivity.
Defined.

(** ** The gesture labels on the console *)

Lemma GetGestureResult_inside (r : Z) :
  1 <= r <= 9 -> GetGestureResult r ∈ gesture_labels.
Proof.
  intros Hr.
  assert (r = 1 \/ r = 2 \/ r = 3 \/ r = 4 \/ r = 5 \/ r = 6 \/ r = 7 \/
          r = 8 \/ r = 9) as Hc by lia.
  unfold gesture_labels.
  repeat (destruct Hc as [-> | Hc]; [cbn; repeat constructor|]).
  subst r. cbn. repeat constructor.
Qed.

(** X12: the label tells the gesture: two codes with the same label are
    the same code as soon as one of them is a recognised pose (1..9); only
    the codes outside 1..9 share a label, the unknown one. *)
Theorem GetGestureResult_injective (r1 r2 : Z) :
  1 <= r1 <= 9 ->
  GetGestureResult r1 = GetGestureResult r2 ->
  r1 = r2.
Proof.
  intros Hr1 Heq.
  destruct (decide (1 <= r2 <= 9)) as [Hr2|Hr2].
  - assert (r1 = 1 \/ r1 = 2 \/ r1 = 3 \/ r1 = 4 \/ r1 = 5 \/ r1 = 6 \/ r1 = 7 \/
            r1 = 8 \/ r1 = 9) as H1 by lia.
    assert (r2 = 1 \/ r2 = 2 \/ r2 = 3 \/ r2 = 4 \/ r2 = 5 \/ r2 = 6 \/ r2 = 7 \/
            r2 = 8 \/ r2 = 9) as H2 by lia.
    destruct H1 as [->|[->|[->|[->|[->|[->|[->|[->| ->]]]]]]]];
      destruct H2 as [->|[->|[->|[->|[->|[->|[->|[->| ->]]]]]]]];
      first [reflexivity | discriminate Heq].
  - rewrite (GetGestureResult_outside r2 Hr2) in Heq.
    pose proof (GetGestureResult_inside r1 Hr1) as Hin. rewrite Heq in Hin.
    by apply unknown_gesture_not_a_label in Hin.
Qed.

Lemma GetGestureResult_injective_witness : 7 = 7.
Proof.
  apply (GetGestureResult_injective 7 7); [lia | reflexivity].
Defined.

Lemma print_results_lines (recogn_result : Z -> Z) (n : nat) :
  forall (i : Z) (out : list ConsoleLine),
  print_results n i recogn_result out
    = out ++ map (fun k => HandResultLine k (GetGestureResult (recogn_result k)))
                 (seqZ i (Z.of_nat n)).
Proof.
  induction n as [|n IH]; intros i out.
  - cbn [print_results]. rewrite seqZ_nil by lia. by rewrite app_nil_r.
  - cbn [print_results]. rewrite IH, <- app_assoc.
    rewrite (seqZ_cons i (Z.of_nat (S n))) by lia. cbn [map app].
    replace (Z.succ i) with (i + 1) by lia.
    replace (Z.pred (Z.of_nat (S n))) with (Z.of_nat n) by lia.
    done.
Qed.

(** X13: [GestureResultCallBackImpl] writes the frame index and then one
    line per hand, for the hands 0 .. count - 1 in this order and none when
    the count is zero or less; the label on the line of hand [i] is the one
    [GetGestureResult] gives for [recogn_result[i]], so it is one of the
    nine pose labels or the unknown label, whatever codes the module
    reports. *)
Theorem GestureResultCallBackImpl_lines (image_index : Z) (recogn_result : Z -> Z)
    (count : Z) :
  GestureResultCallBackImpl image_index recogn_result count
    = ImageIndexLine image_index
      :: map (fun i => HandResultLine i (GetGestureResult (recogn_result i)))
             (seqZ 0 count) /\
  length (GestureResultCallBackImpl image_index recogn_result count)
    = S (Z.to_nat count) /\
  (forall i label,
     HandResultLine i label ∈ GestureResultCallBackImpl image_index recogn_result count ->
     0 <= i < count /\
     (label ∈ gesture_labels <-> 1 <= recogn_result i <= 9) /\
     (label = unknown_gesture <-> ~ (1 <= recogn_result i <= 9))).
Proof.
  assert (Hout : GestureResultCallBackImpl image_index recogn_result count
                 = ImageIndexLine image_index
                   :: map (fun i => HandResultLine i (GetGestureResult (recogn_result i)))
                          (seqZ 0 count)).
  { unfold GestureResultCallBackImpl. rewrite print_results_lines.
    by rewrite seqZ_to_nat. }
  rewrite Hout. split_and!; [done | |].
  - cbn [length]. by rewrite length_map, length_seqZ.
  - intros i label Hin.
    apply elem_of_cons in Hin as [Hin|Hin]; [discriminate Hin|].
    apply list_elem_of_fmap in Hin as (k & [= -> ->] & Hk).
    apply elem_of_seqZ in Hk. split; [lia|].
    destruct (decide (1 <= recogn_result k <= 9)) as [Hr|Hr].
    + pose proof (GetGestureResult_inside _ Hr) as Hlab. split; split; try done.
      intros Hun. rewrite Hun in Hlab. by apply unknown_gesture_not_a_label in Hlab.
    + rewrite (GetGestureResult_outside _ Hr). split; split; try done.
      intros Hlab. by apply unknown_gesture_not_a_label in Hlab.
Qed.

Example gesture_callback_output :
  GestureResultCallBackImpl 4 (fun i => if decide (i = 0) then 7 else -1) 2
    = [ImageIndexLine 4; HandResultLine 0 "ThumbUp"; HandResultLine 1 unknown_gesture].
Proof. reflexivity. Qed.
